(** * Earthquake data pipeline: place parsing, state normalisation,
      county resolution and region assignment

    A shallow embedding of [EarthquakeDataPipeline]
    (src/Earthquake-Data-Pipeline.py).

    Text.  A Python [str] is modelled as a [string]; a character is read
    as the code point of the same number (U+0000 .. U+00FF).  On that
    range the character classes of the pattern are exact: [\d] is
    ['0'..'9'], [\s] and [str.strip] use the same white-space set
    (9-13, 28-32, 133, 160), and case-insensitive matching of the
    ASCII letters of the pattern adds only the other-case ASCII letter. *)

From Stdlib Require Import Ascii String List ZArith QArith Lia.
From stdpp Require Import base option list strings gmap fin_maps pretty.

Open Scope string_scope.
Open Scope list_scope.
Open Scope nat_scope.

(** ** Python values that the pipeline can raise *)

Inductive exn :=
| AttributeError
| KeyError
| TypeError
| ValueError
| ConnectionError.

Inductive result (A : Type) :=
| Ok (a : A)
| Raise (e : exn).
Arguments Ok {A} a.
Arguments Raise {A} e.

#[global] Instance result_ret : MRet result := fun A a => Ok a.

#[global] Instance result_bind : MBind result := fun A B f x =>
  match x with
  | Ok a => f a
  | Raise e => Raise e
  end.

(** ** Characters *)

Definition code (c : ascii) : N := N_of_ascii c.

Definition in_range (lo hi : N) (c : ascii) : bool :=
  (lo <=? code c)%N && (code c <=? hi)%N.

(** [str.isspace] / [\s] on code points below 256. *)
Definition is_space (c : ascii) : bool :=
  in_range 9 13 c || in_range 28 32 c || (code c =? 133)%N || (code c =? 160)%N.

(** [\d] *)
Definition is_digit (c : ascii) : bool := in_range 48 57 c.

Definition is_upper (c : ascii) : bool := in_range 65 90 c.
Definition is_lower (c : ascii) : bool := in_range 97 122 c.

(** [[A-Za-z ]] *)
Definition is_letter_or_blank (c : ascii) : bool :=
  is_upper c || is_lower c || (code c =? 32)%N.

(** [[^,]] *)
Definition not_comma (c : ascii) : bool := negb (code c =? 44)%N.

Definition is_comma (c : ascii) : bool := (code c =? 44)%N.

(** A literal letter of the pattern under [re.IGNORECASE]: the letter
    itself or its other case. *)
Definition letter_ci (l : ascii) (c : ascii) : bool :=
  let lc := code l in
  (code c =? lc)%N
  || (is_lower l && (code c =? lc - 32)%N)
  || (is_upper l && (code c =? lc + 32)%N).

(** [[NSEW]] under [re.IGNORECASE]. *)
Definition is_compass (c : ascii) : bool :=
  letter_ci "N" c || letter_ci "S" c || letter_ci "E" c || letter_ci "W" c.

(** ** [str.strip()] *)

Fixpoint lstrip (s : list ascii) : list ascii :=
  match s with
  | c :: s' => if is_space c then lstrip s' else s
  | [] => []
  end.

Definition rstrip (s : list ascii) : list ascii := rev (lstrip (rev s)).

Definition strip_chars (s : list ascii) : list ascii := rstrip (lstrip s).

Definition strip (s : string) : string :=
  string_of_list_ascii (strip_chars (list_ascii_of_string s)).

(** The text has no white space at either end. *)
Definition trimmed (l : list ascii) : Prop :=
  lstrip l = l ∧ lstrip (rev l) = rev l.

(** ** A backtracking matcher for the fragment of [re] that the pipeline uses

    Repetition is only ever applied to a single character class in the
    source patterns, so [Rep] carries a class.  Alternatives are explored
    in the order of Python's engine: a greedy construct tries the longer
    match first, a lazy one the shorter. *)

Inductive greed := Greedy | Lazy.

Inductive regex :=
| Chr (c : ascii -> bool)
| Cat (r1 r2 : regex)
| Opt (r : regex)
| Rep (g : greed) (lo : nat) (hi : option nat) (c : ascii -> bool)
| Grp (name : string) (r : regex)
| Dollar.

Definition room (hi : option nat) : bool :=
  match hi with
  | Some O => false
  | _ => true
  end.

Definition less (hi : option nat) : option nat := pred <$> hi.

Definition orelse {A} (x y : option A) : option A :=
  match x with
  | Some a => Some a
  | None => y
  end.

Fixpoint rep_greedy {A} (c : ascii -> bool) (lo : nat) (hi : option nat)
    (s : list ascii) (k : list ascii -> option A) : option A :=
  let stop := match lo with O => k s | S _ => None end in
  match s with
  | a :: s' =>
      if c a && room hi
      then orelse (rep_greedy c (pred lo) (less hi) s' k) stop
      else stop
  | [] => stop
  end.

Fixpoint rep_lazy {A} (c : ascii -> bool) (lo : nat) (hi : option nat)
    (s : list ascii) (k : list ascii -> option A) : option A :=
  let more :=
    match s with
    | a :: s' =>
        if c a && room hi then rep_lazy c (pred lo) (less hi) s' k else None
    | [] => None
    end in
  match lo with
  | O => orelse (k s) more
  | S _ => more
  end.

(** Captured groups, by name; a group that did not take part is absent. *)
Abbreviation groups := (gmap string (list ascii)).

(** [$] without [re.MULTILINE]: the end of the text, or just before a
    line feed that ends the text. *)
Definition at_end (s : list ascii) : bool :=
  match s with
  | [] => true
  | [c] => (code c =? 10)%N
  | _ => false
  end.

Fixpoint run {A} (r : regex) (s : list ascii) (g : groups)
    (k : list ascii -> groups -> option A) : option A :=
  match r with
  | Chr c =>
      match s with
      | a :: s' => if c a then k s' g else None
      | [] => None
      end
  | Cat r1 r2 => run r1 s g (fun s' g' => run r2 s' g' k)
  | Opt r1 => orelse (run r1 s g k) (k s g)
  | Rep Greedy lo hi c => rep_greedy c lo hi s (fun s' => k s' g)
  | Rep Lazy lo hi c => rep_lazy c lo hi s (fun s' => k s' g)
  | Grp name r1 =>
      run r1 s g
        (fun s' g' => k s' (<[name := take (length s - length s') s]> g'))
  | Dollar => if at_end s then k s g else None
  end.

(** [pattern.match(text)]: anchored at the start of the text. *)
Definition re_match (r : regex) (text : string) : option groups :=
  run r (list_ascii_of_string text) ∅ (fun _ g => Some g).

(** [m.group(name)] *)
Definition group (m : groups) (name : string) : option string :=
  string_of_list_ascii <$> m !! name.

(** What the matcher explores, as a relation: [matches r s g s' g'] when
    [r] can take a prefix of [s], leaving [s'], and turn the groups [g]
    into [g'].  The matcher returns the first such way, in its order of
    preference, that the rest of the pattern accepts. *)
Inductive matches : regex -> list ascii -> groups -> list ascii -> groups -> Prop :=
| matches_chr c a s g :
    c a = true -> matches (Chr c) (a :: s) g s g
| matches_cat r1 r2 s g s1 g1 s2 g2 :
    matches r1 s g s1 g1 -> matches r2 s1 g1 s2 g2 ->
    matches (Cat r1 r2) s g s2 g2
| matches_opt r s g s' g' :
    matches r s g s' g' -> matches (Opt r) s g s' g'
| matches_skip r s g :
    matches (Opt r) s g s g
| matches_rep gr lo hi c p s g :
    Forall (fun a => c a = true) p -> lo <= length p ->
    (forall n, hi = Some n -> length p <= n) ->
    matches (Rep gr lo hi c) (p ++ s) g s g
| matches_grp name r s g s' g' :
    matches r s g s' g' ->
    matches (Grp name r) s g s' (<[name := take (length s - length s') s]> g')
| matches_dollar s g :
    at_end s = true -> matches Dollar s g s g.

(** A pattern without groups. *)
Fixpoint plain (r : regex) : Prop :=
  match r with
  | Cat r1 r2 => plain r1 /\ plain r2
  | Opt r1 => plain r1
  | Grp _ _ => False
  | _ => True
  end.

(** No part of the pattern can take the character [a], and the pattern
    does not look at the end of the text. *)
Fixpoint rejects (a : ascii) (r : regex) : Prop :=
  match r with
  | Chr c => c a = false
  | Cat r1 r2 => rejects a r1 /\ rejects a r2
  | Opt r1 => rejects a r1
  | Rep _ _ _ c => c a = false
  | Grp _ r1 => rejects a r1
  | Dollar => False
  end.

(** The names of the groups of a pattern. *)
Fixpoint names (r : regex) : list string :=
  match r with
  | Cat r1 r2 => names r1 ++ names r2
  | Opt r1 => names r1
  | Grp name r1 => name :: names r1
  | _ => []
  end.

Declare Scope regex_scope.
Delimit Scope regex_scope with re.
Infix "⋅" := Cat (at level 40, left associativity) : regex_scope.

(** ** [parse_place] *)

Definition spaces : regex := Rep Greedy 0 None is_space.

Definition distance_re : regex :=
  (Rep Greedy 1 None is_digit ⋅ spaces
   ⋅ Chr (letter_ci "k") ⋅ Chr (letter_ci "m"))%re.

Definition direction_re : regex := Rep Greedy 1 (Some 3) is_compass.

Definition of_re : regex :=
  (spaces ⋅ Chr (letter_ci "o") ⋅ Chr (letter_ci "f"))%re.

Definition nearest_re : regex := Rep Lazy 1 None not_comma.

Definition state_re : regex := Rep Greedy 1 None is_letter_or_blank.

(** The three optional parts of the pattern. *)
Definition distance_part : regex := (Grp "distance" distance_re ⋅ spaces)%re.

Definition direction_part : regex :=
  (Grp "direction" direction_re ⋅ of_re ⋅ spaces)%re.

Definition state_part : regex :=
  (Chr is_comma ⋅ spaces ⋅ Grp "state" state_re)%re.

Definition place_pattern : regex :=
  (Opt distance_part
   ⋅ Opt direction_part
   ⋅ Grp "nearest" nearest_re
   ⋅ Opt state_part
   ⋅ Dollar)%re.

(** ** Cell values, dictionaries and data frames

    [NA] stands for both [None] and [NaN]: [pd.isna] and [dropna] do not
    tell them apart.  A number is a rational: the pipeline only moves
    numbers around and hands coordinates to the geometry predicate. *)

Inductive value :=
| NA
| Str (s : string)
| Num (q : Q).

#[global] Instance Q_eq_dec : EqDecision Q.
Proof. solve_decision. Defined.

#[global] Instance value_eq_dec : EqDecision value.
Proof. solve_decision. Defined.

(** A Python [dict] with string keys; also one row of a [DataFrame],
    keyed by column name. *)
Abbreviation dict := (gmap string value).
Abbreviation row := (gmap string value).
Abbreviation frame := (list (gmap string value)).

(** [m.group(name)] as a cell value. *)
Definition of_group (x : option string) : value :=
  match x with
  | Some s => Str s
  | None => NA
  end.

(** [x.strip()] on the value of a group: a group that did not take part
    is [None], which has no [strip]. *)
Definition strip_attr (x : option string) : result string :=
  match x with
  | Some s => Ok (strip s)
  | None => Raise AttributeError
  end.

(** The dictionary literal of [parse_place]. *)
Definition location (distance direction nearest state : value) : dict :=
  <["distance" := distance]> (<["direction" := direction]>
    (<["nearest" := nearest]> (<["state" := state]> ∅))).

Definition parse_place (txt : string) : result dict :=
  match re_match place_pattern (strip txt) with
  | None => Ok (location NA NA (Str txt) NA)
  | Some m =>
      n ← strip_attr (group m "nearest");
      Ok (location (of_group (group m "distance"))
            (of_group (group m "direction"))
            (Str n)
            (of_group (group m "state")))
  end.

(** A prefix of [s] matches [r]. *)
Definition recognizes (r : regex) (s : string) : bool :=
  bool_decide (is_Some (run r (list_ascii_of_string s) ∅ (fun _ _ => Some tt))).

(** The start of the text is neither a distance token nor a direction
    followed by "of". *)
Definition no_offset (s : string) : Prop :=
  recognizes distance_re s = false
  ∧ recognizes (Cat direction_re of_re) s = false.

(** ** Static tables *)

Definition us_regions : list (string * list string) :=
  [ ("Northeast",
      ["Connecticut"; "Massachusetts"; "Maine"; "New Hampshire";
       "Rhode Island"; "Vermont"; "New Jersey"; "New York"; "Pennsylvania"]);
    ("Midwest",
      ["Illinois"; "Indiana"; "Iowa"; "Kansas"; "Michigan"; "Minnesota";
       "Missouri"; "Nebraska"; "North Dakota"; "Ohio"; "South Dakota";
       "Wisconsin"]);
    ("South",
      ["Alabama"; "Arkansas"; "Delaware"; "Florida"; "Georgia"; "Kentucky";
       "Louisiana"; "Maryland"; "Mississippi"; "North Carolina"; "Oklahoma";
       "South Carolina"; "Tennessee"; "Texas"; "Virginia"; "West Virginia"]);
    ("West",
      ["Alaska"; "Arizona"; "California"; "Colorado"; "Hawaii"; "Idaho";
       "Montana"; "Nevada"; "New Mexico"; "Oregon"; "Utah"; "Washington";
       "Wyoming"]) ].

Definition state_mapping : gmap string string :=
  list_to_map
    [ ("CA", "California"); ("NV", "Nevada"); ("OR", "Oregon"); ("AK", "Alaska");
      ("AZ", "Arizona"); ("AR", "Arkansas"); ("CO", "Colorado"); ("CT", "Connecticut");
      ("DE", "Delaware"); ("FL", "Florida"); ("GA", "Georgia"); ("HI", "Hawaii");
      ("ID", "Idaho"); ("IL", "Illinois"); ("IN", "Indiana"); ("IA", "Iowa");
      ("KS", "Kansas"); ("KY", "Kentucky"); ("LA", "Louisiana"); ("ME", "Maine");
      ("MD", "Maryland"); ("MA", "Massachusetts"); ("MI", "Michigan"); ("MN", "Minnesota");
      ("MS", "Mississippi"); ("MO", "Missouri"); ("MT", "Montana"); ("NE", "Nebraska");
      ("NH", "New Hampshire"); ("NJ", "New Jersey"); ("NM", "New Mexico"); ("NY", "New York");
      ("NC", "North Carolina"); ("ND", "North Dakota"); ("OH", "Ohio"); ("OK", "Oklahoma");
      ("PA", "Pennsylvania"); ("RI", "Rhode Island"); ("SC", "South Carolina");
      ("SD", "South Dakota"); ("TN", "Tennessee"); ("TX", "Texas"); ("UT", "Utah");
      ("VT", "Vermont"); ("VA", "Virginia"); ("WA", "Washington"); ("WV", "West Virginia");
      ("WI", "Wisconsin"); ("WY", "Wyoming") ].

Definition us_states : gset string :=
  list_to_set
    [ "California"; "Alaska"; "Hawaii"; "Texas"; "Washington"; "Montana";
      "New Mexico"; "Utah"; "Idaho"; "Oregon"; "Wyoming"; "Colorado";
      "New Jersey"; "Tennessee"; "Missouri"; "Arkansas"; "Arizona";
      "Kansas"; "Georgia"; "Maine"; "South Carolina"; "Nevada";
      "North Carolina"; "New York"; "Louisiana"; "Connecticut";
      "Illinois"; "Oklahoma"; "Kentucky"; "New Hampshire"; "Virginia";
      "Nebraska"; "South Dakota"; "Minnesota"; "Alabama"; "Massachusetts";
      "Pennsylvania"; "Maryland"; "West Virginia"; "Mississippi";
      "Wisconsin"; "Florida"; "Indiana" ].

Definition us_territories : gset string :=
  list_to_set
    [ "Puerto Rico"; "Guam"; "Northern Mariana Islands"; "American Samoa" ].

(** ** [expand_state_name] and [get_country_continent] *)

Definition expand_state_name (state : value) : result value :=
  match state with
  | NA => Ok NA
  | Str s =>
      let state_clean := strip s in
      Ok (Str (default state_clean (state_mapping !! state_clean)))
  | Num _ => Raise AttributeError
  end.

Definition get_country_continent (state : value) : result (string * string) :=
  match state with
  | NA => Ok ("Unknown", "Unknown")
  | Str s =>
      let state_clean := strip s in
      if bool_decide (state_clean ∈ us_states)
         || bool_decide (state_clean ∈ us_territories)
      then Ok ("United States", "North America")
      else Ok ("Unknown", "Unknown")
  | Num _ => Raise AttributeError
  end.

(** ** Data-frame operations

    A frame is the list of its rows in index order.  What pandas does
    with a frame that has no rows at all is outside this model, and so
    are the progress lines printed and the CSV copies written by the
    three transformation stages: none of them changes the frame a stage
    returns. *)

(** [df.dropna()] keeps the rows without a missing cell. *)
Definition complete (r : row) : Prop := map_Forall (fun _ v => v ≠ NA) r.

#[global] Instance complete_dec (r : row) : Decision (complete r).
Proof. unfold complete. apply _. Defined.

Definition dropna (df : frame) : frame := filter complete df.

(** [df[name]], one row at a time. *)
Definition col (r : row) (name : string) : result value :=
  match r !! name with
  | Some v => Ok v
  | None => Raise KeyError
  end.

(** [df.rename(columns={old: new})]; a column that is not there is skipped. *)
Definition rename_col (old new : string) (r : row) : row :=
  match r !! old with
  | Some v => <[new := v]> (delete old r)
  | None => r
  end.

(** [parse_place] applied to a cell of the [place] column: only a string
    has [strip]. *)
Definition parse_place_cell (place : value) : result dict :=
  match place with
  | Str txt => parse_place txt
  | _ => Raise AttributeError
  end.

(** ** Step 2: [clean_and_transform_data]

    The feed has no column called [distance], [direction], [nearest] or
    [state], so the column-wise concatenation adds four fresh columns;
    here the parsed value wins if a row already had one. *)

(** The first half: drop incomplete rows, parse the place of every row,
    add the four parsed columns and drop incomplete rows again. *)
Definition parse_and_drop (df : frame) : result frame :=
  let df := dropna df in
  parsed ← mapM (fun r => place ← col r "place"; parse_place_cell place) df;
  let df := zip_with (fun (r : row) (p : dict) => p ∪ r) df parsed in
  Ok (dropna df).

(** The second half: expand the state, add country and continent, rename
    and drop columns, keep the rows of the United States. *)
Definition normalize_and_filter (df : frame) : result frame :=
  df ← mapM (fun r : row =>
               state ← col r "state";
               state' ← expand_state_name state;
               Ok (<["state" := state']> r)) df;
  df ← mapM (fun r : row =>
               state ← col r "state";
               cc ← get_country_continent state;
               Ok (<["continent" := Str cc.2]> (<["country" := Str cc.1]> r))) df;
  let df :=
    (fun r : row =>
       rename_col "nearest" "nearest_locality"
         (rename_col "distance" "offset_distance"
           (rename_col "direction" "offset_direction"
             (rename_col "id" "earthquake_id" r)))) <$> df in
  let df := (fun r : row => delete "place" r) <$> df in
  let df := filter (fun r : row => r !! "continent" ≠ Some (Str "Unknown")) df in
  let df := filter (fun r : row => r !! "country" = Some (Str "United States")) df in
  Ok df.

Definition clean_and_transform_data (df : frame) : result frame :=
  df ← parse_and_drop df;
  normalize_and_filter df.

(** ** Step 3: [add_county_data]

    The county polygons and the point-in-polygon predicate of the
    geometry library are parameters. *)
Section Counties.
Context {polygon : Type}.
Variable intersects : Q -> Q -> polygon -> bool.

Record county := mk_county {
  NAME : string;
  geometry : polygon
}.

Variable gdf_counties : list county.

(** The [Point] of a row; a missing coordinate gives a point that no
    polygon intersects. *)
Definition coordinate (v : value) : result (option Q) :=
  match v with
  | Num q => Ok (Some q)
  | NA => Ok None
  | Str _ => Raise TypeError
  end.

Definition point_of (r : row) : result (option (Q * Q)) :=
  lat ← col r "latitude";
  lon ← col r "longitude";
  x ← coordinate lon;
  y ← coordinate lat;
  Ok (match x, y with
      | Some x, Some y => Some (x, y)
      | _, _ => None
      end).

(** The county rows that a point intersects, with their positions. *)
Definition matching (pt : option (Q * Q)) : list (nat * county) :=
  match pt with
  | Some (x, y) =>
      filter (fun jc : nat * county => intersects x y (geometry jc.2) = true)
        (imap pair gdf_counties)
  | None => []
  end.

(** [gpd.sjoin(..., how="left", predicate="intersects")] on one left row:
    one output row per matching county, or one row with empty county
    columns when there is none. *)
Definition sjoin_left (r : row) (pt : option (Q * Q)) : list row :=
  match matching pt with
  | [] => [<["NAME" := NA]> (<["index_right" := NA]> r)]
  | ms =>
      (fun jc : nat * county =>
         <["NAME" := Str (NAME jc.2)]>
           (<["index_right" := Num (inject_Z (Z.of_nat jc.1))]> r)) <$> ms
  end.

Definition add_county_data (df : frame) : result frame :=
  pts ← mapM point_of df;
  let joined := concat (zip_with sjoin_left df pts) in
  let joined := rename_col "NAME" "county" <$> joined in
  Ok ((fun r : row => delete "geometry" r) <$> joined).
End Counties.

(** [r'] is the record [r] after the county step: it has a county cell,
    no NAME and no geometry column, and the cells of [r] everywhere else. *)
Definition joined_from (r r' : row) : Prop :=
  is_Some (r' !! "county") /\ r' !! "NAME" = None /\ r' !! "geometry" = None
  /\ forall key, key ∉ ["NAME"; "county"; "index_right"; "geometry"] ->
               r' !! key = r !! key.

Arguments mk_county {polygon} NAME geometry.
Arguments NAME {polygon} c.
Arguments geometry {polygon} c.

(** ** Step 4: [add_regions_and_finalize] *)

(** The reverse index built by the two nested loops. *)
Definition state_to_region : gmap string string :=
  foldl (fun m (entry : string * list string) =>
           foldl (fun m state => <[state := entry.1]> m) m entry.2)
        ∅ us_regions.

(** [Series.map(state_to_region)]: a value that is not a key gives [NaN]. *)
Definition map_region (state : value) : value :=
  match state with
  | Str s => of_group (state_to_region !! s)
  | _ => NA
  end.

Definition fillna (fill : string) (v : value) : value :=
  match v with
  | NA => Str fill
  | _ => v
  end.

(** The region that a state value ends up with. *)
Definition region_of (state : value) : value :=
  fillna "Non-US" (map_region state).

(** [re.sub(r, '', s)]: every leftmost non-empty match is cut out. *)
Definition match_length (r : regex) (s : list ascii) : option nat :=
  run r s ∅ (fun s' _ => Some (length s - length s')).

Fixpoint cut_matches (r : regex) (skip : nat) (s : list ascii) : list ascii :=
  match s with
  | [] => []
  | a :: t =>
      match skip with
      | S n => cut_matches r n t
      | O =>
          match match_length r s with
          | Some (S n) => cut_matches r n t
          | _ => a :: cut_matches r 0 t
          end
      end
  end.

(** [\s*km], case-sensitive. *)
Definition km_re : regex :=
  (Rep Greedy 0 None is_space ⋅ Chr (fun c => (code c =? 107)%N)
   ⋅ Chr (fun c => (code c =? 109)%N))%re.

Definition strip_km (s : string) : string :=
  string_of_list_ascii (cut_matches km_re 0 (list_ascii_of_string s)).

(** The text has the two letters "km", in lower case, somewhere. *)
Fixpoint contains_km (s : list ascii) : bool :=
  match s with
  | a :: t =>
      match t with
      | b :: _ => (code a =? 107)%N && (code b =? 109)%N || contains_km t
      | [] => false
      end
  | [] => false
  end.

Section Finalize.
(** [float(text)] of the run-time; [None] when the text is no number. *)
Variable to_float : string -> option Q.

Definition clean_offset_distance (v : value) : result value :=
  match v with
  | Str s =>
      match to_float (strip_km s) with
      | Some q => Ok (Num q)
      | None => Raise ValueError
      end
  | Num _ => Raise AttributeError
  | NA => Ok NA
  end.

Definition add_regions_and_finalize (df : frame) : result frame :=
  let df := dropna df in
  df ← mapM (fun r : row =>
               state ← col r "state";
               Ok (<["region" := region_of state]> r)) df;
  let df :=
    (fun r : row => delete "index_right" (delete "country" (delete "continent" r)))
      <$> df in
  let df := filter (fun r : row => r !! "region" ≠ Some (Str "Non-US")) df in
  mapM (fun r : row =>
          d ← col r "offset_distance";
          d' ← clean_offset_distance d;
          Ok (<["offset_distance" := d']> r)) df.
End Finalize.

(** Steps 2 to 4 in the order of [run_pipeline]. *)
Definition transform_stages {polygon : Type}
    (intersects : Q -> Q -> polygon -> bool) (gdf_counties : list (@county polygon))
    (to_float : string -> option Q) (df : frame) : result frame :=
  df ← clean_and_transform_data df;
  df ← add_county_data intersects gdf_counties df;
  add_regions_and_finalize to_float df.

(** ** Step 1: [fetch_month_data] and [load_earthquake_data]

    What the process prints and writes is kept as a trace next to the
    result. *)

Inductive event :=
| Print (line : string)
| ToCsv (path : string) (df : frame).

Definition io (A : Type) : Type := list event * result A.

#[global] Instance io_ret : MRet io := fun A a => ([], Ok a).

#[global] Instance io_bind : MBind io := fun A B f x =>
  match x with
  | (t, Ok a) => let '(t', r) := f a in (t ++ t', r)
  | (t, Raise e) => (t, Raise e)
  end.

Definition print (line : string) : io unit := ([Print line], Ok tt).
Definition to_csv (path : string) (df : frame) : io unit := ([ToCsv path df], Ok tt).
Definition lift {A} (r : result A) : io A := ([], r).

Record response := mk_response {
  status_code : Z;
  content : string
}.

Definition years : list nat := [2020; 2021; 2022; 2023; 2024; 2025]%nat.
Definition min_magnitude : nat := 0.
Definition base_url : string := "https://earthquake.usgs.gov/fdsnws/event/1/query.csv".
Definition raw_data_file : string := "earthquakes[2020-2025].csv".

(** [f"{n:02d}"] *)
Definition pad2 (n : nat) : string :=
  if (n <? 10)%nat then "0" +:+ pretty n else pretty n.

Definition isleap (year : nat) : bool :=
  ((year mod 4 =? 0) && negb (year mod 100 =? 0) || (year mod 400 =? 0))%nat.

(** [calendar.monthrange(year, month)[1]] *)
Definition monthrange_days (year month : nat) : result nat :=
  match month with
  | 1 | 3 | 5 | 7 | 8 | 10 | 12 => Ok 31
  | 4 | 6 | 9 | 11 => Ok 30
  | 2 => Ok (if isleap year then 29 else 28)
  | _ => Raise ValueError
  end%nat.

(** [pd.concat(frames, ignore_index=True)]: the rows of all frames over the
    union of their columns; a missing cell is [NaN]. *)
Definition all_columns (df : frame) : gset string := ⋃ (dom <$> df).

Definition pd_concat (frames : list frame) : result frame :=
  match frames with
  | [] => Raise ValueError
  | _ =>
      let rows := concat frames in
      Ok ((fun r : row => r ∪ gset_to_gmap NA (all_columns rows)) <$> rows)
  end.

Definition repeat_string (s : string) (n : nat) : string :=
  String.concat "" (replicate n s).

(** [f"{year}-{month:02d}-01"] and [f"{year}-{month:02d}-{last_day}"] *)
Definition first_day (year month : nat) : string :=
  pretty year +:+ "-" +:+ pad2 month +:+ "-01".

Definition day_of (year month day : nat) : string :=
  pretty year +:+ "-" +:+ pad2 month +:+ "-" +:+ pretty day.

Definition query_params (start_date end_date : string) : list (string * string) :=
  [ ("format", "csv"); ("starttime", start_date); ("endtime", end_date);
    ("minmagnitude", pretty min_magnitude); ("orderby", "time") ].

(** The diagnostic of a failed month. *)
Definition fetch_failed (year month : nat) (status : Z) : string :=
  "❌ Failed to fetch data for " +:+ pretty year +:+ "-" +:+ pad2 month
  +:+ ". Status code: " +:+ pretty status.

Section Feed.
(** [requests.get(url, params=...)] and [pd.read_csv] of the decoded body. *)
Variable requests_get : string -> list (string * string) -> result response.
Variable read_csv : string -> result frame.

Definition fetch_month_data (year month : nat) : io frame :=
  let start_date := first_day year month in
  last_day ← lift (monthrange_days year month);
  let end_date := day_of year month last_day in
  let params := query_params start_date end_date in
  _ ← print ("Fetching data for " +:+ start_date +:+ " to " +:+ end_date +:+ "...");
  response ← lift (requests_get base_url params);
  if (status_code response =? 200)%Z then
    df ← lift (read_csv (content response));
    _ ← print ("✅ Retrieved " +:+ pretty (length df) +:+ " records.");
    mret df
  else
    _ ← print (fetch_failed year month (status_code response));
    mret [].

(** The body of the two nested loops, for one (year, month). *)
Definition load_month (all_data : list frame) (period : nat * nat)
    : io (list frame) :=
  df_month ← fetch_month_data period.1 period.2;
  mret (match df_month with
        | [] => all_data
        | _ => all_data ++ [df_month]
        end).

Fixpoint load_months (all_data : list frame) (periods : list (nat * nat))
    : io (list frame) :=
  match periods with
  | [] => mret all_data
  | period :: rest =>
      all_data ← load_month all_data period;
      load_months all_data rest
  end.

Definition periods : list (nat * nat) :=
  year ← years; month ← seq 1 12; [(year, month)].

Definition load_earthquake_data : io frame :=
  _ ← print (repeat_string "=" 60);
  _ ← print "STEP 1: LOADING EARTHQUAKE DATA FROM USGS";
  _ ← print (repeat_string "=" 60);
  all_data ← load_months [] periods;
  combined_df ← lift (pd_concat all_data);
  _ ← to_csv raw_data_file combined_df;
  _ ← print ("
🎉 All data saved to '" +:+ raw_data_file +:+ "' — Total records: "
              +:+ pretty (length combined_df));
  mret combined_df.
End Feed.

(** An event of the trace that is a printed line. *)
Definition printed (ev : event) : Prop := exists line, ev = Print line.

(** ** Example geometry and number reader, for concrete runs *)

(** An axis-aligned box with its boundary. *)
Record box := mk_box {
  west : Q;
  south : Q;
  east : Q;
  north : Q
}.

Definition box_intersects (x y : Q) (b : box) : bool :=
  Qle_bool (west b) x && Qle_bool x (east b)
  && Qle_bool (south b) y && Qle_bool y (north b).

(** Reads a string of decimal digits. *)
Definition read_digits (s : string) : option Q :=
  let cs := list_ascii_of_string s in
  if bool_decide (cs ≠ []) && forallb is_digit cs
  then Some (inject_Z (Z.of_N (foldl (fun n c => n * 10 + (code c - 48))%N 0%N cs)))
  else None.

Definition two_counties : list (@county box) :=
  [ mk_county "Adams" (mk_box 0 0 2 2); mk_county "Brown" (mk_box 2 0 4 2) ].

Definition feed_row (id place : string) (lon lat : Q) : row :=
  <["id" := Str id]> (<["place" := Str place]>
    (<["longitude" := Num lon]> (<["latitude" := Num lat]> ∅))).

Definition anchorage_row : row := feed_row "a" "Anchorage, Alaska" 1 1.
Definition springfield_row : row := feed_row "b" "3km ENE of Springfield, IL" 3 1.
Definition dayton_row : row := feed_row "c" "7 km S of Dayton, OH" 1 1.

(** [springfield_row] after step 2. *)
Definition springfield_clean : row :=
  <["offset_distance" := Str "3km"]> (<["offset_direction" := Str "ENE"]>
    (<["state" := Str "Illinois"]> (<["country" := Str "United States"]>
      (<["continent" := Str "North America"]> (<["earthquake_id" := Str "b"]>
        (<["nearest_locality" := Str "Springfield"]>
          (<["longitude" := Num 3]> (<["latitude" := Num 1]> ∅)))))))).

(** [springfield_clean] after step 3 with [two_counties], and after step 4. *)
Definition springfield_joined : row :=
  <["county" := Str "Brown"]> (<["index_right" := Num 1]> springfield_clean).

Definition springfield_final : row :=
  <["offset_distance" := Num 3]> (<["region" := Str "Midwest"]>
    (delete "index_right" (delete "country" (delete "continent" springfield_joined)))).

(** * Properties *)

(** ** Text conversions and [strip] *)

Lemma chars_of_string (l : list ascii) :
  list_ascii_of_string (string_of_list_ascii l) = l.
Proof. apply list_ascii_of_string_of_list_ascii. Qed.

Lemma string_of_chars (s : string) :
  string_of_list_ascii (list_ascii_of_string s) = s.
Proof. apply string_of_list_ascii_of_string. Qed.

Lemma chars_app (s t : string) :
  list_ascii_of_string (s +:+ t) = list_ascii_of_string s ++ list_ascii_of_string t.
Proof. induction s as [|a s IH]; simpl; [done | by rewrite IH]. Qed.

Lemma lstrip_drop (l : list ascii) : ∃ n, lstrip l = drop n l.
Proof.
  induction l as [|a l [n IH]]; simpl.
  - by exists 0.
  - destruct (is_space a); [by exists (S n) | by exists 0].
Qed.

Lemma lstrip_fixed (l : list ascii) :
  lstrip l = l ↔ match l with a :: _ => is_space a = false | [] => True end.
Proof.
  destruct l as [|a l]; simpl; [done|].
  destruct (is_space a) eqn:E; split; try done.
  intros H. destruct (lstrip_drop l) as [n Hn].
  assert (length (lstrip l) = length (a :: l)) as Hlen by by rewrite H.
  rewrite Hn, length_drop in Hlen. simpl in Hlen. lia.
Qed.

Lemma lstrip_idem (l : list ascii) : lstrip (lstrip l) = lstrip l.
Proof.
  induction l as [|a l IH]; simpl; [done|].
  destruct (is_space a) eqn:E; [done|]. simpl. by rewrite E.
Qed.

Lemma lstrip_take (l : list ascii) n : lstrip l = l → lstrip (take n l) = take n l.
Proof.
  rewrite !lstrip_fixed. destruct l as [|a l]; [by rewrite take_nil|].
  by destruct n.
Qed.

Lemma strip_chars_trimmed (l : list ascii) : trimmed (strip_chars l).
Proof.
  unfold trimmed, strip_chars, rstrip. split.
  - destruct (lstrip_drop (rev (lstrip l))) as [n Hn].
    rewrite Hn, skipn_rev, !rev_involutive.
    apply lstrip_take, lstrip_idem.
  - by rewrite rev_involutive, lstrip_idem.
Qed.

Lemma trimmed_strip_chars (l : list ascii) : trimmed l → strip_chars l = l.
Proof.
  intros [H1 H2]. unfold strip_chars, rstrip.
  by rewrite H1, H2, rev_involutive.
Qed.

Lemma strip_idem (s : string) : strip (strip s) = strip s.
Proof.
  unfold strip. rewrite chars_of_string.
  by rewrite trimmed_strip_chars by apply strip_chars_trimmed.
Qed.

(** ** Region mapping *)

Lemma lookup_region_fold (s : string) (regions : list (string * list string))
    (m : gmap string string) :
  m !! s = None →
  (∀ region states, (region, states) ∈ regions → s ∉ states) →
  foldl (fun m (entry : string * list string) =>
           foldl (fun m state => <[state := entry.1]> m) m entry.2)
        m regions !! s = None.
Proof.
  revert m. induction regions as [|[region states] regions IH]; intros m Hm Hs; [done|].
  simpl. apply IH.
  - assert (s ∉ states) as Hn by (apply (Hs region), elem_of_cons; by left).
    clear Hs IH. revert m Hm. induction states as [|st states IH]; intros m Hm; [done|].
    simpl. apply IH.
    + set_solver.
    + rewrite lookup_insert_ne; [done | set_solver].
  - intros r sts Hin. apply (Hs r), elem_of_cons. by right.
Qed.

Lemma state_to_region_None (s : string) :
  (∀ region states, (region, states) ∈ us_regions → s ∉ states) →
  state_to_region !! s = None.
Proof. intros H. by apply lookup_region_fold. Qed.

Ltac list_cases H :=
  repeat (apply elem_of_cons in H as [H|H]; [simplify_eq/= | ]);
  try (by apply elem_of_nil in H).

(** C5: region mapping is total.  A state listed in one of the four
    region lists gets the region of that list, which is one of Northeast,
    Midwest, South and West (so the lists do not overlap); every other
    state value, a missing one included, gets "Non-US". *)
Theorem region_mapping_total :
  (∀ region states state,
      (region, states) ∈ us_regions → state ∈ states →
      region_of (Str state) = Str region
      ∧ region ∈ ["Northeast"; "Midwest"; "South"; "West"])
  ∧ (∀ state,
      (∀ region states, (region, states) ∈ us_regions → state ∉ states) →
      region_of (Str state) = Str "Non-US")
  ∧ region_of NA = Str "Non-US"
  ∧ (∀ q, region_of (Num q) = Str "Non-US").
Proof.
  split; [|split; [|split]]; try done.
  - intros region states state Hr Hs.
    unfold us_regions in Hr. list_cases Hr; list_cases Hs;
      (split; [by vm_compute | by apply (bool_decide_unpack _); vm_compute]).
  - intros state H. unfold region_of, map_region.
    by rewrite state_to_region_None.
Qed.

Lemma region_mapping_total_witness :
  (region_of (Str "Ohio") = Str "Midwest"
   ∧ "Midwest" ∈ ["Northeast"; "Midwest"; "South"; "West"])
  ∧ region_of (Str "Sonora") = Str "Non-US".
Proof.
  split.
  - apply (proj1 region_mapping_total "Midwest"
      ["Illinois"; "Indiana"; "Iowa"; "Kansas"; "Michigan"; "Minnesota";
       "Missouri"; "Nebraska"; "North Dakota"; "Ohio"; "South Dakota";
       "Wisconsin"]); by apply (bool_decide_unpack _); vm_compute.
  - apply (proj1 (proj2 region_mapping_total)).
    intros region states Hr. unfold us_regions in Hr.
    list_cases Hr; by apply (bool_decide_unpack _); vm_compute.
Defined.

(** ** State-abbreviation expansion *)

Lemma expand_state_name_Str (s : string) :
  expand_state_name (Str s) =
    Ok (Str (default (strip s) (state_mapping !! strip s))).
Proof. reflexivity. Qed.

Lemma full_names_fixed :
  map_Forall (fun _ full => strip full = full ∧ state_mapping !! full = None)
    state_mapping.
Proof. by apply (bool_decide_unpack _); vm_compute. Qed.

(** C6: state-abbreviation expansion.  A full state name (a value of the
    abbreviation table) is returned unchanged; expanding twice is the same
    as expanding once; a code without surrounding white space that is not
    in the table is returned unchanged; a missing state stays missing. *)
Theorem expand_state_name_idempotent :
  (∀ abbr full, state_mapping !! abbr = Some full →
     expand_state_name (Str full) = Ok (Str full))
  ∧ (∀ state state', expand_state_name state = Ok state' →
       expand_state_name state' = Ok state')
  ∧ (∀ code, strip code = code → state_mapping !! code = None →
       expand_state_name (Str code) = Ok (Str code))
  ∧ expand_state_name NA = Ok NA.
Proof.
  assert (∀ abbr full, state_mapping !! abbr = Some full →
            expand_state_name (Str full) = Ok (Str full)) as Hfull.
  { intros abbr full H. destruct (full_names_fixed abbr full H) as [Hs Hn].
    by rewrite expand_state_name_Str, Hs, Hn. }
  split; [exact Hfull|]. split; [|split]; [| |reflexivity].
  - intros [|s|q] state' H.
    + by injection H as <-.
    + rewrite expand_state_name_Str in H.
      destruct (state_mapping !! strip s) as [full|] eqn:E;
        cbn [default] in H; injection H as <-.
      * by eapply Hfull.
      * by rewrite expand_state_name_Str, strip_idem, E.
    + discriminate H.
  - intros code Hs Hn. by rewrite expand_state_name_Str, Hs, Hn.
Qed.

Lemma expand_state_name_idempotent_witness :
  expand_state_name (Str "California") = Ok (Str "California")
  ∧ expand_state_name (Str "Illinois") = Ok (Str "Illinois")
  ∧ expand_state_name (Str "BC") = Ok (Str "BC").
Proof.
  split; [|split].
  - apply (proj1 expand_state_name_idempotent "CA"). by vm_compute.
  - apply (proj1 (proj2 expand_state_name_idempotent) (Str " IL ")). by vm_compute.
  - apply (proj1 (proj2 (proj2 expand_state_name_idempotent))); by vm_compute.
Defined.

(** ** Monthly fetch *)

Section FeedFacts.
Variable requests_get : string -> list (string * string) -> result response.
Variable read_csv : string -> result frame.

Lemma fetch_month_data_failed year month last_day resp :
  monthrange_days year month = Ok last_day →
  requests_get base_url
    (query_params (first_day year month) (day_of year month last_day)) = Ok resp →
  status_code resp ≠ 200%Z →
  fetch_month_data requests_get read_csv year month =
    ([Print ("Fetching data for " +:+ first_day year month +:+ " to "
             +:+ day_of year month last_day +:+ "...");
      Print (fetch_failed year month (status_code resp))], Ok []).
Proof.
  intros Hd Hr Hs. unfold fetch_month_data.
  rewrite Hd. cbn [lift mbind io_bind print]. rewrite Hr.
  cbn [lift mbind io_bind print].
  apply Z.eqb_neq in Hs. rewrite Hs. reflexivity.
Qed.
End FeedFacts.

(** C7: a month whose request comes back with a status other than 200.
    [fetch_month_data] prints the diagnostic, raises nothing and returns
    a frame without rows; the loop of [load_earthquake_data] then goes on
    with the remaining months and the accumulated frames unchanged. *)
Theorem non_200_month_is_skipped
    (requests_get : string -> list (string * string) -> result response)
    (read_csv : string -> result frame)
    (year month last_day : nat) (resp : response)
    (all_data : list frame) (rest : list (nat * nat)) :
  monthrange_days year month = Ok last_day →
  requests_get base_url
    (query_params (first_day year month) (day_of year month last_day)) = Ok resp →
  status_code resp ≠ 200%Z →
  let fetching :=
    "Fetching data for " +:+ first_day year month +:+ " to "
    +:+ day_of year month last_day +:+ "..." in
  fetch_month_data requests_get read_csv year month =
    ([Print fetching; Print (fetch_failed year month (status_code resp))], Ok [])
  ∧ load_months requests_get read_csv all_data ((year, month) :: rest) =
      ([Print fetching; Print (fetch_failed year month (status_code resp))]
         ++ (load_months requests_get read_csv all_data rest).1,
       (load_months requests_get read_csv all_data rest).2).
Proof.
  intros Hd Hr Hs fetching. split.
  - by eapply fetch_month_data_failed.
  - cbn [load_months]. unfold load_month. cbn [fst snd].
    erewrite fetch_month_data_failed by done.
    cbn [mbind io_bind mret io_ret app].
    by destruct (load_months requests_get read_csv all_data rest).
Qed.

Lemma non_200_month_is_skipped_witness :
  let get := fun (_ : string) (_ : list (string * string)) => Ok (mk_response 503 "") in
  let csv := fun _ : string => Ok ([] : frame) in
  let fetching := "Fetching data for 2024-02-01 to 2024-02-29..." in
  fetch_month_data get csv 2024 2 =
    ([Print fetching; Print "❌ Failed to fetch data for 2024-02. Status code: 503"], Ok [])
  ∧ load_months get csv [] [(2024, 2)] =
      ([Print fetching; Print "❌ Failed to fetch data for 2024-02. Status code: 503"], Ok []).
Proof.
  intros get csv.
  apply (non_200_month_is_skipped get csv 2024 2 29 (mk_response 503 "") [] []);
    [reflexivity | reflexivity | by vm_compute].
Defined.

(** ** County resolution *)

Section CountyFacts.
Context {polygon : Type}.
Variable intersects : Q -> Q -> polygon -> bool.
Variable gdf_counties : list (@county polygon).

Lemma filter_imap_snd (P : @county polygon → Prop) `{!∀ c, Decision (P c)}
    (g : nat → nat) (l : list (@county polygon)) :
  snd <$> filter (fun jc : nat * county => P jc.2) (imap (fun j c => (g j, c)) l)
  = filter P l.
Proof.
  revert g. induction l as [|c l IH]; intros g; [done|].
  rewrite imap_cons, !filter_cons. cbn [snd].
  destruct (decide (P c)); [rewrite fmap_cons; f_equal|]; apply (IH (g ∘ S)).
Qed.

Lemma matching_names (x y : Q) :
  snd <$> matching intersects gdf_counties (Some (x, y))
  = filter (fun c => intersects x y (geometry c) = true) gdf_counties.
Proof.
  unfold matching.
  rewrite <- (filter_imap_snd (fun c => intersects x y (geometry c) = true) id).
  reflexivity.
Qed.

Lemma county_of_joined (r : row) (v : value) :
  delete "geometry" (rename_col "NAME" "county" (<["NAME" := v]> r)) !! "county"
  = Some v.
Proof.
  unfold rename_col. rewrite lookup_insert_eq.
  rewrite lookup_delete_ne by done. by rewrite lookup_insert_eq.
Qed.

Lemma point_of_numbers (r : row) (x y : Q) :
  r !! "latitude" = Some (Num y) → r !! "longitude" = Some (Num x) →
  point_of r = Ok (Some (x, y)).
Proof. intros Hy Hx. unfold point_of, col. by rewrite Hy, Hx. Qed.
End CountyFacts.




(** ** The matcher against the matching relation *)

Section Repetition.
Context {A : Type}.
Implicit Types (c : ascii → bool) (k : list ascii → option A).

Lemma orelse_Some (x y : option A) (a : A) :
  orelse x y = Some a → x = Some a ∨ (x = None ∧ y = Some a).
Proof. destruct x; simpl; intros; simplify_eq; auto. Qed.

Lemma orelse_is_Some (x y : option A) :
  is_Some x ∨ is_Some y → is_Some (orelse x y).
Proof. destruct x; simpl; intros [[]|]; eauto; done. Qed.

Lemma rep_greedy_sound c lo hi s k x :
  rep_greedy c lo hi s k = Some x →
  ∃ p s', s = p ++ s' ∧ Forall (fun a => c a = true) p ∧ lo ≤ length p
          ∧ (∀ n, hi = Some n → length p ≤ n) ∧ k s' = Some x.
Proof.
  revert lo hi. induction s as [|a s IH]; intros lo hi H.
  - destruct lo; simpl in H; [|done].
    exists [], []. repeat split; auto. intros; simpl; lia.
  - assert (match lo with O => k (a :: s) | S _ => None end = Some x →
            ∃ p s', a :: s = p ++ s' ∧ Forall (fun a => c a = true) p ∧ lo ≤ length p
                    ∧ (∀ n, hi = Some n → length p ≤ n) ∧ k s' = Some x) as Hstop.
    { destruct lo; [|done]. intros Hk. exists [], (a :: s).
      repeat split; auto. intros; simpl; lia. }
    simpl in H. destruct (c a && room hi) eqn:E; [|by apply Hstop].
    apply andb_prop in E as [Ec Er].
    apply orelse_Some in H as [H|[_ H]]; [|by apply Hstop].
    apply IH in H as (p & s' & -> & Hp & Hlo & Hhi & Hk).
    exists (a :: p), s'. repeat split; auto.
    + simpl. lia.
    + intros n ->. destruct n; [done|]. simpl in *.
      specialize (Hhi n eq_refl). lia.
Qed.

Lemma rep_lazy_sound c lo hi s k x :
  rep_lazy c lo hi s k = Some x →
  ∃ p s', s = p ++ s' ∧ Forall (fun a => c a = true) p ∧ lo ≤ length p
          ∧ (∀ n, hi = Some n → length p ≤ n) ∧ k s' = Some x.
Proof.
  revert lo hi. induction s as [|a s IH]; intros lo hi H.
  - destruct lo; simpl in H; [|done].
    destruct (k []) eqn:E; simpl in H; [|done]. simplify_eq.
    exists [], []. repeat split; auto. intros; simpl; lia.
  - assert (rep_lazy c (pred lo) (less hi) s k = Some x → c a && room hi = true →
            ∃ p s', a :: s = p ++ s' ∧ Forall (fun a => c a = true) p ∧ lo ≤ length p
                    ∧ (∀ n, hi = Some n → length p ≤ n) ∧ k s' = Some x) as Hmore.
    { intros Hr E. apply andb_prop in E as [Ec Er].
      apply IH in Hr as (p & s' & -> & Hp & Hlo & Hhi & Hk).
      exists (a :: p), s'. repeat split; auto.
      - simpl. lia.
      - intros n ->. destruct n; [done|]. simpl in *.
        specialize (Hhi n eq_refl). lia. }
    simpl in H. destruct lo.
    + apply orelse_Some in H as [H|[_ H]].
      * exists [], (a :: s). repeat split; auto. intros; simpl; lia.
      * destruct (c a && room hi) eqn:E; [|done]. by apply Hmore.
    + destruct (c a && room hi) eqn:E; [|done]. by apply Hmore.
Qed.

Lemma room_bound hi (p : list ascii) :
  (∀ n, hi = Some n → S (length p) ≤ n) →
  room hi = true ∧ (∀ n, less hi = Some n → length p ≤ n).
Proof.
  intros H. destruct hi as [[|n]|]; simpl.
  - specialize (H 0 eq_refl). lia.
  - split; [done|]. intros m [= <-]. specialize (H (S n) eq_refl). lia.
  - split; [done|]. intros m [=].
Qed.

Lemma rep_greedy_complete c lo hi p s k :
  Forall (fun a => c a = true) p → lo ≤ length p →
  (∀ n, hi = Some n → length p ≤ n) →
  is_Some (k s) → is_Some (rep_greedy c lo hi (p ++ s) k).
Proof.
  intros Hp. revert lo hi. induction Hp as [|a p Ha Hp IH]; intros lo hi Hlo Hhi Hk.
  - destruct lo; [|simpl in Hlo; lia].
    destruct s as [|a s]; simpl; [done|].
    destruct (c a && room hi); [|done].
    apply orelse_is_Some. by right.
  - simpl. apply room_bound in Hhi as [Hr Hhi]. rewrite Ha, Hr. simpl.
    apply orelse_is_Some. left. apply IH; auto. simpl in Hlo. lia.
Qed.

Lemma rep_lazy_complete c lo hi p s k :
  Forall (fun a => c a = true) p → lo ≤ length p →
  (∀ n, hi = Some n → length p ≤ n) →
  is_Some (k s) → is_Some (rep_lazy c lo hi (p ++ s) k).
Proof.
  intros Hp. revert lo hi. induction Hp as [|a p Ha Hp IH]; intros lo hi Hlo Hhi Hk.
  - destruct lo; [|simpl in Hlo; lia].
    destruct s as [|a s]; simpl; apply orelse_is_Some; by left.
  - apply room_bound in Hhi as [Hr Hhi].
    assert (is_Some (rep_lazy c (pred lo) (less hi) (p ++ s) k)) as Hmore.
    { apply IH; auto. simpl in Hlo. lia. }
    simpl. rewrite Ha, Hr. simpl. destruct lo; [|done].
    apply orelse_is_Some. by right.
Qed.

(** The greedy star stops where it does only if going one further fails. *)
Lemma rep_greedy_longest c s k x :
  rep_greedy c 0 None s k = Some x →
  ∃ p s', s = p ++ s' ∧ Forall (fun a => c a = true) p ∧ k s' = Some x
          ∧ match s' with
            | a :: s'' => c a = true → rep_greedy c 0 None s'' k = None
            | [] => True
            end.
Proof.
  induction s as [|a s IH]; intros H.
  - exists [], []. by repeat split.
  - simpl in H. destruct (c a) eqn:E; simpl in H.
    + apply orelse_Some in H as [H|[Hn H]].
      * apply IH in H as (p & s' & -> & Hp & Hk & Hs).
        exists (a :: p), s'. repeat split; auto.
      * exists [], (a :: s). repeat split; auto.
    + exists [], (a :: s). repeat split; auto. by rewrite E.
Qed.

(** A greedy repetition over text that is all in the class takes it all. *)
Lemma rep_greedy_all c lo p k x :
  Forall (fun a => c a = true) p → lo ≤ length p → k [] = Some x →
  rep_greedy c lo None p k = Some x.
Proof.
  intros Hp. revert lo. induction Hp as [|a p Ha Hp IH]; intros lo Hlo Hk.
  - destruct lo; [done | simpl in Hlo; lia].
  - simpl. rewrite Ha. simpl. rewrite IH; [done| |done]. simpl in Hlo. lia.
Qed.

(** A greedy star in front of a character outside the class does nothing. *)
Lemma rep_greedy_none c a s k :
  c a = false → rep_greedy c 0 None (a :: s) k = k (a :: s).
Proof. intros H. simpl. by rewrite H. Qed.

(** The lazy repetition stops at the first place that the rest accepts. *)
Lemma rep_lazy_first c lo p s k x :
  Forall (fun a => c a = true) p → lo ≤ length p →
  (∀ i, lo ≤ i < length p → k (drop i p ++ s) = None) →
  k s = Some x →
  rep_lazy c lo None (p ++ s) k = Some x.
Proof.
  intros Hp. revert lo. induction Hp as [|a p Ha Hp IH]; intros lo Hlo Hno Hk.
  - destruct lo; [|simpl in Hlo; lia].
    destruct s; simpl; by rewrite Hk.
  - assert (rep_lazy c (pred lo) None (p ++ s) k = Some x) as Hmore.
    { apply IH; auto.
      - simpl in Hlo. lia.
      - intros i Hi. apply (Hno (S i)). simpl. lia. }
    simpl. rewrite Ha. simpl. destruct lo; [|done].
    specialize (Hno 0). cbn [drop] in Hno. cbn [app] in *.
    rewrite Hno; [done|]. simpl. lia.
Qed.
End Repetition.

Lemma run_sound {A} (r : regex) s g (k : list ascii → groups → option A) x :
  run r s g k = Some x →
  ∃ s' g', matches r s g s' g' ∧ k s' g' = Some x.
Proof.
  revert s g k. induction r as [c|r1 IH1 r2 IH2|r IH|gr lo hi c|name r IH|];
    intros s g k H; simpl in H.
  - destruct s as [|a s]; [done|]. destruct (c a) eqn:E; [|done].
    exists s, g. split; [by constructor | done].
  - apply IH1 in H as (s1 & g1 & H1 & H).
    apply IH2 in H as (s2 & g2 & H2 & H).
    exists s2, g2. split; [by econstructor | done].
  - apply orelse_Some in H as [H|[_ H]].
    + apply IH in H as (s' & g' & H1 & H). exists s', g'. split; [by constructor | done].
    + exists s, g. split; [by constructor | done].
  - destruct gr.
    + apply rep_greedy_sound in H as (p & s' & -> & Hp & Hlo & Hhi & H).
      exists s', g. split; [by constructor | done].
    + apply rep_lazy_sound in H as (p & s' & -> & Hp & Hlo & Hhi & H).
      exists s', g. split; [by constructor | done].
  - apply IH in H as (s' & g' & H1 & H).
    eexists _, _. split; [by constructor | done].
  - destruct (at_end s) eqn:E; [|done].
    exists s, g. split; [by constructor | done].
Qed.

Lemma run_complete {A} (r : regex) s g s' g' (k : list ascii → groups → option A) :
  matches r s g s' g' → is_Some (k s' g') → is_Some (run r s g k).
Proof.
  intros H. revert k. induction H; intros k Hk; simpl.
  - by rewrite H.
  - apply IHmatches1. by apply IHmatches2.
  - apply orelse_is_Some. left. by apply IHmatches.
  - apply orelse_is_Some. by right.
  - destruct gr; [by apply rep_greedy_complete | by apply rep_lazy_complete].
  - by apply IHmatches.
  - by rewrite H.
Qed.

Lemma matches_suffix r s g s' g' : matches r s g s' g' → ∃ p, s = p ++ s'.
Proof.
  induction 1.
  - by exists [a].
  - destruct IHmatches1 as [p1 ->], IHmatches2 as [p2 ->].
    exists (p1 ++ p2). by rewrite app_assoc.
  - done.
  - by exists [].
  - by exists p.
  - done.
  - by exists [].
Qed.

Lemma matches_keeps r s g s' g' name :
  matches r s g s' g' → name ∉ names r → g' !! name = g !! name.
Proof.
  induction 1; simpl; intros Hn; try done.
  - rewrite IHmatches2, IHmatches1; [done|set_solver..].
  - by apply IHmatches.
  - rewrite lookup_insert_ne by set_solver. apply IHmatches. set_solver.
Qed.

Lemma matches_grows r s g s' g' name :
  matches r s g s' g' → is_Some (g !! name) → is_Some (g' !! name).
Proof.
  induction 1; intros Hn; auto.
  destruct (decide (name0 = name)) as [->|].
  - rewrite lookup_insert_eq. eauto.
  - rewrite lookup_insert_ne by done. auto.
Qed.

Lemma matches_plain r s g s' g' :
  matches r s g s' g' → plain r → g' = g ∧ ∀ h, matches r s h s' h.
Proof.
  induction 1; simpl; intros Hp.
  - split; [done|]. intros h. by constructor.
  - destruct Hp as [Hp1 Hp2].
    destruct (IHmatches1 Hp1) as [-> H1], (IHmatches2 Hp2) as [-> H2].
    split; [done|]. intros h. by econstructor.
  - destruct (IHmatches Hp) as [-> H1]. split; [done|]. intros h. by constructor.
  - split; [done|]. intros h. by constructor.
  - split; [done|]. intros h. by constructor.
  - done.
  - split; [done|]. intros h. by constructor.
Qed.

(** A pattern that cannot take [a] matches inside the text before [a]. *)
Lemma matches_barrier r a u t g s' g' :
  matches r (u ++ a :: t) g s' g' → rejects a r → plain r →
  ∃ u', s' = u' ++ a :: t ∧ matches r u g u' g'.
Proof.
  intros H. remember (u ++ a :: t) as s eqn:Es. revert u Es.
  induction H; intros u Es Hr Hp; simpl in Hr, Hp.
  - destruct u as [|b u]; simplify_eq/=; [congruence|].
    exists u. split; [done | by constructor].
  - destruct Hr as [Hr1 Hr2], Hp as [Hp1 Hp2].
    destruct (IHmatches1 _ Es Hr1 Hp1) as (u1 & -> & H1).
    destruct (IHmatches2 _ eq_refl Hr2 Hp2) as (u2 & -> & H2).
    exists u2. split; [done | by econstructor].
  - destruct (IHmatches _ Es Hr Hp) as (u1 & -> & H1).
    exists u1. split; [done | by constructor].
  - subst. exists u. split; [done | by constructor].
  - apply app_eq_inv in Es as [(k & -> & Hk)|(k & -> & ->)].
    + destruct k as [|b k]; simplify_eq/=.
      * exists []. rewrite app_nil_r in *. split; [done|].
        rewrite <- (app_nil_r u) at 1. by constructor.
      * apply Forall_app in H as [_ H]. apply Forall_cons in H as [H _]. congruence.
    + exists k. split; [done | by constructor].
  - done.
  - done.
Qed.

(** ** [parse_place] always answers *)

Lemma matches_cat_inv r1 r2 s g s2 g2 :
  matches (Cat r1 r2) s g s2 g2 →
  ∃ s1 g1, matches r1 s g s1 g1 ∧ matches r2 s1 g1 s2 g2.
Proof. inversion 1; subst; eauto. Qed.

Lemma matches_grp_inv name r s g s' g' :
  matches (Grp name r) s g s' g' →
  ∃ g0, matches r s g s' g0 ∧ g' = <[name := take (length s - length s') s]> g0.
Proof. inversion 1; subst; eauto. Qed.

Lemma matches_opt_inv r s g s' g' :
  matches (Opt r) s g s' g' → matches r s g s' g' ∨ (s' = s ∧ g' = g).
Proof. inversion 1; subst; auto. Qed.

Lemma matches_rep_inv gr lo hi c s g s' g' :
  matches (Rep gr lo hi c) s g s' g' →
  ∃ p, s = p ++ s' ∧ g' = g ∧ Forall (fun a => c a = true) p ∧ lo ≤ length p
       ∧ (∀ n, hi = Some n → length p ≤ n).
Proof. inversion 1; subst; eauto 10. Qed.

Lemma matches_chr_inv c s g s' g' :
  matches (Chr c) s g s' g' → ∃ a, s = a :: s' ∧ g' = g ∧ c a = true.
Proof. inversion 1; subst; eauto. Qed.

Lemma matches_dollar_inv s g s' g' :
  matches Dollar s g s' g' → s' = s ∧ g' = g ∧ at_end s = true.
Proof. inversion 1; subst; auto. Qed.

(** A match of the whole pattern has a [nearest] group. *)
Lemma place_match_has_nearest (text : string) (m : groups) :
  re_match place_pattern text = Some m → is_Some (m !! "nearest").
Proof.
  unfold re_match. intros H.
  apply run_sound in H as (s' & g' & H & [= ->]).
  unfold place_pattern in H.
  apply matches_cat_inv in H as (s4 & g4 & H & Hd).
  apply matches_cat_inv in H as (s3 & g3 & H & Ht).
  apply matches_cat_inv in H as (s2 & g2 & H & Hn).
  apply matches_grp_inv in Hn as (g0 & _ & ->).
  eapply matches_grows; [exact Hd|].
  eapply matches_grows; [exact Ht|].
  rewrite lookup_insert_eq. eauto.
Qed.

Lemma dom_location (distance direction nearest state : value) :
  dom (location distance direction nearest state)
  = list_to_set ["distance"; "direction"; "nearest"; "state"].
Proof.
  unfold location. rewrite !dom_insert_L, dom_empty_L. simpl.
  by rewrite !(assoc_L (∪)).
Qed.

Lemma lookup_location_nearest (distance direction nearest state : value) :
  location distance direction nearest state !! "nearest" = Some nearest.
Proof.
  unfold location. rewrite lookup_insert_ne by done.
  rewrite lookup_insert_ne by done. by rewrite lookup_insert_eq.
Qed.

(** C10: [parse_place] is total on strings.  It raises nothing and the
    dictionary it returns has exactly the keys distance, direction,
    nearest and state, with a string (never [None]) under nearest. *)
Theorem parse_place_total (txt : string) :
  ∃ (d : dict) (nearest : string),
    parse_place txt = Ok d
    ∧ dom d = list_to_set ["distance"; "direction"; "nearest"; "state"]
    ∧ d !! "nearest" = Some (Str nearest).
Proof.
  unfold parse_place.
  destruct (re_match place_pattern (strip txt)) as [m|] eqn:E.
  - destruct (place_match_has_nearest _ _ E) as [cap Hcap].
    unfold group. rewrite Hcap.
    cbn [fmap option_fmap option_map strip_attr mbind result_bind].
    eexists _, _. split; [reflexivity|]. split; [apply dom_location|].
    apply lookup_location_nearest.
  - eexists _, _. split; [reflexivity|]. split; [apply dom_location|].
    apply lookup_location_nearest.
Qed.

(** ** The place pattern, part by part *)

Lemma run_place_pattern {A} (l : list ascii) (g : groups)
    (k : list ascii → groups → option A) :
  run place_pattern l g k =
    run (Opt distance_part) l g (fun s1 g1 =>
      run (Opt direction_part) s1 g1 (fun s2 g2 =>
        run (Grp "nearest" nearest_re) s2 g2 (fun s3 g3 =>
          run (Opt state_part) s3 g3 (fun s4 g4 =>
            run Dollar s4 g4 k)))).
Proof. reflexivity. Qed.

Lemma recognizes_false (r : regex) (l : list ascii) :
  recognizes r (string_of_list_ascii l) = false →
  ¬ is_Some (run r l ∅ (fun _ _ => Some tt)).
Proof.
  unfold recognizes. rewrite chars_of_string. intros H.
  by apply bool_decide_eq_false in H.
Qed.

Lemma matches_recognized (r : regex) s g s' g' :
  matches r s g s' g' → plain r → is_Some (run r s ∅ (fun _ _ => Some tt)).
Proof.
  intros H Hp. apply matches_plain in H as [_ H]; [|done].
  eapply run_complete; [apply (H ∅) | by eexists].
Qed.

Lemma distance_part_inv s g s' g' :
  matches distance_part s g s' g' → ∃ s1 g1, matches distance_re s g s1 g1.
Proof.
  unfold distance_part. intros H.
  apply matches_cat_inv in H as (s1 & g1 & H & _).
  apply matches_grp_inv in H as (g0 & H & _). eauto.
Qed.

Lemma direction_part_inv s g s' g' :
  matches direction_part s g s' g' →
  ∃ s2, matches (Cat direction_re of_re) s ∅ s2 ∅.
Proof.
  unfold direction_part. intros H.
  apply matches_cat_inv in H as (s2 & g2 & H & _).
  apply matches_cat_inv in H as (s1 & g1 & H & Ho).
  apply matches_grp_inv in H as (g0 & H & _).
  apply matches_plain in H as [_ H]; [|done].
  apply matches_plain in Ho as [_ Ho]; [|by repeat split].
  exists s2. econstructor; [apply H | apply Ho].
Qed.

Lemma plain_distance_re : plain distance_re.
Proof. by repeat split. Qed.

Lemma plain_direction_of : plain (Cat direction_re of_re).
Proof. by repeat split. Qed.

Lemma rejects_comma_distance_re : rejects "," distance_re.
Proof. by repeat split. Qed.

Lemma rejects_comma_direction_of : rejects "," (Cat direction_re of_re).
Proof. by repeat split. Qed.

Section Skips.
Context {A : Type}.
Implicit Types (k : list ascii → groups → option A).

(** An optional part whose token is not at the start is passed over. *)
Lemma skip_distance_part l g k :
  recognizes distance_re (string_of_list_ascii l) = false →
  run (Opt distance_part) l g k = k l g.
Proof.
  intros Hn. cbn [run]. destruct (run distance_part l g k) eqn:E; [|done].
  apply run_sound in E as (s' & g' & H & _).
  apply distance_part_inv in H as (s1 & g1 & H).
  destruct (recognizes_false _ _ Hn).
  eapply matches_recognized; [exact H | apply plain_distance_re].
Qed.

Lemma skip_direction_part l g k :
  recognizes (Cat direction_re of_re) (string_of_list_ascii l) = false →
  run (Opt direction_part) l g k = k l g.
Proof.
  intros Hn. cbn [run]. destruct (run direction_part l g k) eqn:E; [|done].
  apply run_sound in E as (s' & g' & H & _).
  apply direction_part_inv in H as (s2 & H).
  destruct (recognizes_false _ _ Hn).
  eapply matches_recognized; [exact H | apply plain_direction_of].
Qed.

(** The same in front of a comma: the tokens cannot reach across it. *)
Lemma recognizes_before_comma (r : regex) (u t : list ascii) :
  plain r → rejects "," r →
  recognizes r (string_of_list_ascii u) = false →
  recognizes r (string_of_list_ascii (u ++ ","%char :: t)) = false.
Proof.
  intros Hp Hr Hn. apply bool_decide_eq_false. rewrite chars_of_string.
  intros [[] E]. apply run_sound in E as (s' & g' & H & _).
  apply matches_barrier in H as (u' & _ & H); [|done..].
  destruct (recognizes_false _ _ Hn).
  by eapply matches_recognized.
Qed.
End Skips.

Lemma no_offset_before_comma (u t : list ascii) :
  no_offset (string_of_list_ascii u) →
  no_offset (string_of_list_ascii (u ++ ","%char :: t)).
Proof.
  intros [H1 H2]. split.
  - apply recognizes_before_comma;
      [apply plain_distance_re | apply rejects_comma_distance_re | done].
  - apply recognizes_before_comma;
      [apply plain_direction_of | apply rejects_comma_direction_of | done].
Qed.

(** The end of the pattern, [(?:,\s*(?P<state>[A-Za-z ]+))?$]. *)
Section Tail.
Context {A : Type}.
Implicit Types (k : list ascii → groups → option A).

(** In the middle of a locality the end of the pattern does not match. *)
Lemma tail_inside a s g k :
  not_comma a = true → at_end (a :: s) = false →
  run (Opt state_part) (a :: s) g (fun s4 g4 => run Dollar s4 g4 k) = None.
Proof.
  intros Ha He. cbn [run state_part]. rewrite He.
  unfold not_comma in Ha. unfold is_comma.
  by destruct (code a =? 44)%N.
Qed.

Lemma tail_at_end g k :
  run (Opt state_part) [] g (fun s4 g4 => run Dollar s4 g4 k) = k [] g.
Proof. reflexivity. Qed.

(** A comma, a blank and a trimmed run of letters and blanks. *)
Lemma tail_state (st : list ascii) g k x :
  st ≠ [] → Forall (fun a => is_letter_or_blank a = true) st →
  lstrip st = st →
  k [] (<["state" := st]> g) = Some x →
  run (Opt state_part) (","%char :: " "%char :: st) g (fun s4 g4 => run Dollar s4 g4 k)
  = Some x.
Proof.
  intros Hne Hst Hhead Hk.
  destruct st as [|b st']; [done|].
  apply lstrip_fixed in Hhead.
  cbn [run state_part spaces state_re].
  change (is_comma ","%char) with true. cbv iota.
  change (rep_greedy is_space 0 None (" "%char :: b :: st') ?f)
    with (orelse (rep_greedy is_space 0 None (b :: st') f) (f (" "%char :: b :: st'))).
  rewrite rep_greedy_none by done.
  rewrite (rep_greedy_all _ _ (b :: st') _ x); [done | done | simpl; lia |].
  cbn [at_end]. rewrite Nat.sub_0_r, firstn_all. exact Hk.
Qed.
End Tail.

(** ** Trimmed text *)

Lemma at_end_inv (s : list ascii) :
  at_end s = true → s = [] ∨ ∃ c, s = [c] ∧ is_space c = true.
Proof.
  destruct s as [|c [|]]; simpl; intros H; [by left| |done].
  right. exists c. split; [done|].
  apply N.eqb_eq in H. unfold is_space, in_range. by rewrite H.
Qed.

Lemma trimmed_last (x : list ascii) (c : ascii) :
  trimmed (x ++ [c]) → is_space c = false.
Proof.
  intros [_ H]. rewrite rev_app_distr in H.
  by apply lstrip_fixed in H.
Qed.

Lemma trimmed_suffix (x st : list ascii) :
  trimmed (x ++ st) → st ≠ [] → lstrip (rev st) = rev st.
Proof.
  intros [_ H] Hne. rewrite rev_app_distr in H.
  apply lstrip_fixed in H. apply lstrip_fixed.
  destruct (rev st) as [|a l] eqn:E; [|done].
  destruct Hne. apply (f_equal (@rev ascii)) in E.
  by rewrite rev_involutive in E.
Qed.

Lemma trimmed_not_at_end (l : list ascii) (i : nat) :
  trimmed l → i < length l → at_end (drop i l) = false.
Proof.
  intros Ht Hi. destruct (at_end (drop i l)) eqn:E; [|done].
  apply at_end_inv in E as [E|(c & E & Hc)].
  - apply (f_equal length) in E. rewrite length_drop in E. simpl in E. lia.
  - rewrite <- (take_drop i l), E in Ht. apply trimmed_last in Ht. congruence.
Qed.

Lemma trimmed_app (u v : list ascii) :
  u ≠ [] → v ≠ [] → lstrip u = u → lstrip (rev v) = rev v → trimmed (u ++ v).
Proof.
  intros Hu Hv H1 H2. split.
  - apply lstrip_fixed. apply lstrip_fixed in H1. by destruct u.
  - rewrite rev_app_distr. apply lstrip_fixed. apply lstrip_fixed in H2.
    destruct (rev v) as [|a l] eqn:E; [|done].
    destruct Hv. apply (f_equal (@rev ascii)) in E.
    by rewrite rev_involutive in E.
Qed.

Lemma Forall_strip_chars (P : ascii → Prop) (l : list ascii) :
  Forall P l → Forall P (strip_chars l).
Proof.
  intros H. unfold strip_chars, rstrip.
  assert (∀ l, Forall P l → Forall P (lstrip l)) as Hl.
  { intros l0 H0. destruct (lstrip_drop l0) as [n ->]. by apply Forall_drop. }
  apply Forall_rev, Hl, Forall_rev, Hl, H.
Qed.

(** ** Matches of the whole pattern *)

Lemma run_nearest {A} (s : list ascii) (g : groups)
    (k : list ascii → groups → option A) :
  run (Grp "nearest" nearest_re) s g k =
    rep_lazy not_comma 1 None s
      (fun s' => k s' (<["nearest" := take (length s - length s') s]> g)).
Proof. reflexivity. Qed.

Lemma rep_lazy_whole {A} (c : ascii → bool) lo (p : list ascii)
    (k : list ascii → option A) x :
  Forall (fun a => c a = true) p → lo ≤ length p →
  (∀ i, lo ≤ i < length p → k (drop i p) = None) →
  k [] = Some x →
  rep_lazy c lo None p k = Some x.
Proof.
  intros Hp Hlo Hno Hk. rewrite <- (app_nil_r p).
  apply rep_lazy_first; [done..| |done].
  intros i Hi. rewrite app_nil_r. by apply Hno.
Qed.

(** A bare locality: no comma, no offset in front. *)
Lemma place_match_bare (l : list ascii) :
  l ≠ [] → Forall (fun a => not_comma a = true) l → trimmed l →
  no_offset (string_of_list_ascii l) →
  run place_pattern l ∅ (fun _ g => Some g) = Some (<["nearest" := l]> ∅).
Proof.
  intros Hne Hnc Ht [Hd Ho]. rewrite run_place_pattern.
  rewrite skip_distance_part, skip_direction_part by done.
  rewrite run_nearest.
  apply rep_lazy_whole; [done | destruct l; [done | simpl; lia] | |].
  - intros i Hi.
    assert (∃ a s, drop i l = a :: s) as (a & s & E).
    { destruct (drop i l) as [|a s] eqn:E; [|by eauto].
      apply (f_equal length) in E. rewrite length_drop in E. simpl in E. lia. }
    rewrite E. apply tail_inside.
    + apply (Forall_drop _ i) in Hnc. rewrite E in Hnc.
      by apply Forall_cons in Hnc as [? _].
    + rewrite <- E. apply trimmed_not_at_end; [done | lia].
  - rewrite tail_at_end. cbn [length]. by rewrite Nat.sub_0_r, firstn_all.
Qed.

(** A locality, a comma, a blank and a state. *)
Lemma place_match_nearest_state (nl st : list ascii) :
  nl ≠ [] → Forall (fun a => not_comma a = true) nl →
  no_offset (string_of_list_ascii nl) →
  st ≠ [] → Forall (fun a => is_letter_or_blank a = true) st → lstrip st = st →
  run place_pattern (nl ++ ","%char :: " "%char :: st) ∅ (fun _ g => Some g)
  = Some (<["state" := st]> (<["nearest" := nl]> ∅)).
Proof.
  intros Hne Hnc Hno Hst Hlb Hhead.
  apply (no_offset_before_comma _ (" "%char :: st)) in Hno as [Hd Ho].
  rewrite run_place_pattern.
  rewrite skip_distance_part, skip_direction_part by done.
  rewrite run_nearest.
  apply rep_lazy_first; [done | destruct nl; [done | simpl; lia] | |].
  - intros i Hi.
    assert (∃ a s, drop i nl = a :: s) as (a & s & E).
    { destruct (drop i nl) as [|a s] eqn:E; [|by eauto].
      apply (f_equal length) in E. rewrite length_drop in E. simpl in E. lia. }
    rewrite E. apply tail_inside.
    + apply (Forall_drop _ i) in Hnc. rewrite E in Hnc.
      by apply Forall_cons in Hnc as [? _].
    + by destruct s.
  - apply tail_state; [done..|].
    cbn [run at_end]. do 2 f_equal.
    rewrite length_app. cbn [length].
    replace (length nl + S (S (length st)) - S (S (length st))) with (length nl) by lia.
    by rewrite take_app_length.
Qed.

Ltac list_eq := repeat (rewrite <- ?app_assoc; cbn [app]); reflexivity.

(** What a match that has a state looks like. *)
Lemma place_match_state (l : list ascii) (m : groups) (st : list ascii) :
  trimmed l →
  run place_pattern l ∅ (fun _ g => Some g) = Some m →
  m !! "state" = Some st →
  ∃ cap, m !! "nearest" = Some cap
    ∧ Forall (fun a => not_comma a = true) cap
    ∧ st ≠ [] ∧ Forall (fun a => is_letter_or_blank a = true) st
    ∧ trimmed st.
Proof.
  intros Ht E Hst. rewrite run_place_pattern in E.
  apply run_sound in E as (s1 & g1 & H1 & E).
  apply run_sound in E as (s2 & g2 & H2 & E).
  apply run_sound in E as (s3 & g3 & H3 & E).
  assert (g2 !! "state" = None) as Hg2.
  { rewrite (matches_keeps _ _ _ _ _ "state" H2)
      by (apply (bool_decide_unpack _); by vm_compute).
    rewrite (matches_keeps _ _ _ _ _ "state" H1)
      by (apply (bool_decide_unpack _); by vm_compute). done. }
  destruct (matches_suffix _ _ _ _ _ H1) as [x1 ->].
  destruct (matches_suffix _ _ _ _ _ H2) as [x2 ->].
  apply matches_grp_inv in H3 as (g0 & H3 & ->).
  apply matches_rep_inv in H3 as (cap & -> & -> & Hcap & Hlen & _).
  rewrite length_app, Nat.add_sub, take_app_length in E.
  cbn [run] in E. apply orelse_Some in E as [E|[_ E]].
  - unfold state_part in E. cbn [run] in E.
    destruct s3 as [|a s3]; [done|]. destruct (is_comma a) eqn:Ea; [|done].
    apply rep_greedy_longest in E as (p & rest & -> & Hp & E & Hlong).
    apply rep_greedy_sound in E as (st' & e & -> & Hst' & Hlen' & _ & E).
    destruct (at_end e) eqn:Ee; [|done]. injection E as <-.
    rewrite length_app, Nat.add_sub, take_app_length, lookup_insert_eq in Hst.
    injection Hst as ->.
    assert (st ≠ []) as Hne by (destruct st; [simpl in Hlen'; lia | done]).
    assert (e = []) as ->.
    { apply at_end_inv in Ee as [->|(c & -> & Hc)]; [done|].
      assert (is_space c = false); [|congruence].
      apply (trimmed_last (x1 ++ x2 ++ cap ++ a :: p ++ st) c).
      by replace ((x1 ++ x2 ++ cap ++ a :: p ++ st) ++ [c])
        with (x1 ++ x2 ++ cap ++ a :: p ++ st ++ [c]) by list_eq. }
    rewrite app_nil_r in *.
    assert (lstrip (rev st) = rev st) as Hlast.
    { apply (trimmed_suffix (x1 ++ x2 ++ cap ++ a :: p)); [|done].
      by replace ((x1 ++ x2 ++ cap ++ a :: p) ++ st)
        with (x1 ++ x2 ++ cap ++ a :: p ++ st) by list_eq. }
    exists cap. split; [|repeat split; try done].
    + rewrite lookup_insert_ne by done. by rewrite lookup_insert_eq.
    + apply lstrip_fixed. destruct st as [|b st]; [done|].
      destruct (is_space b) eqn:Eb; [|done]. exfalso.
      specialize (Hlong eq_refl).
      destruct st as [|b' st].
      { simpl in Hlast. by rewrite Eb in Hlast. }
      apply Forall_cons in Hst' as [_ Hst'].
      assert (is_Some (rep_greedy is_space 0 None (b' :: st)
                (fun s' => rep_greedy is_letter_or_blank 1 None s'
                   (fun s'0 => if at_end s'0
                      then Some (<["state" := take (length s' - length s'0) s']>
                                   (<["nearest" := cap]> g2))
                      else None)))) as [y Hy].
      { apply (rep_greedy_complete _ 0 None [] (b' :: st)); [done | simpl; lia | done |].
        rewrite <- (app_nil_r (b' :: st)).
        apply rep_greedy_complete; [done | simpl; lia | done |]. by eexists. }
      cut (Some y = None); [done|]. rewrite <- Hy. exact Hlong.
  - cbn [run] in E. destruct (at_end s3); [|done]. injection E as <-.
    rewrite lookup_insert_ne, Hg2 in Hst by done. done.
Qed.

(** ** [parse_place] on matched and unmatched text *)

Lemma strip_string_of (l : list ascii) :
  strip (string_of_list_ascii l) = string_of_list_ascii (strip_chars l).
Proof. unfold strip. by rewrite chars_of_string. Qed.

Lemma chars_strip (s : string) :
  list_ascii_of_string (strip s) = strip_chars (list_ascii_of_string s).
Proof. unfold strip. by rewrite chars_of_string. Qed.

Lemma string_of_inj (l1 l2 : list ascii) :
  string_of_list_ascii l1 = string_of_list_ascii l2 → l1 = l2.
Proof.
  intros H. apply (f_equal list_ascii_of_string) in H.
  by rewrite !chars_of_string in H.
Qed.

Lemma lookup_location_state (distance direction nearest state : value) :
  location distance direction nearest state !! "state" = Some state.
Proof.
  unfold location. do 3 (rewrite lookup_insert_ne by done).
  by rewrite lookup_insert_eq.
Qed.

(** The result of [parse_place] when the pattern matches with exactly the
    groups [m]. *)
Lemma parse_place_matched (txt : string) (m : groups) (cap : list ascii) :
  run place_pattern (strip_chars (list_ascii_of_string txt)) ∅ (fun _ g => Some g)
    = Some m →
  m !! "nearest" = Some cap →
  parse_place txt =
    Ok (location (of_group (group m "distance")) (of_group (group m "direction"))
          (Str (string_of_list_ascii (strip_chars cap)))
          (of_group (group m "state"))).
Proof.
  intros E Hcap. unfold parse_place, re_match. rewrite chars_strip, E.
  assert (group m "nearest" = Some (string_of_list_ascii cap)) as ->
    by (unfold group; by rewrite Hcap).
  cbn [strip_attr mbind result_bind].
  by rewrite strip_string_of.
Qed.

Lemma parse_place_bare (txt : string) :
  strip txt ≠ "" →
  Forall (fun a => not_comma a = true) (list_ascii_of_string txt) →
  no_offset (strip txt) →
  parse_place txt = Ok (location NA NA (Str (strip txt)) NA).
Proof.
  intros Hne Hnc Hno.
  pose proof (strip_chars_trimmed (list_ascii_of_string txt)) as Ht.
  assert (strip txt = string_of_list_ascii (strip_chars (list_ascii_of_string txt)))
    as Hs by done.
  rewrite Hs in Hno. rewrite Hs.
  set (l := strip_chars (list_ascii_of_string txt)) in *.
  rewrite (parse_place_matched txt (<["nearest" := l]> ∅) l).
  - unfold group. rewrite !lookup_insert_ne, !lookup_empty by done.
    cbn [fmap option_fmap option_map of_group].
    by rewrite trimmed_strip_chars.
  - apply place_match_bare; [|by apply Forall_strip_chars|done..].
    intros E. apply Hne. by rewrite Hs, E.
  - by rewrite lookup_insert_eq.
Qed.







(** ** The transformation stage on frames *)

Section MapM.
Context {A B : Type} (f : A → result B).

Lemma mapM_Ok_inv (l : list A) (k : list B) :
  mapM f l = Ok k → Forall2 (fun x y => f x = Ok y) l k.
Proof.
  revert k. induction l as [|x l IH]; intros k H.
  - injection H as <-. constructor.
  - cbn [mapM] in H. unfold mbind, result_bind in H.
    destruct (f x) as [y|] eqn:Ey; [|done].
    fold (mapM f l) in *.
    destruct (mapM f l) as [k'|] eqn:Ek; [|done].
    injection H as <-. constructor; [done|]. by apply IH.
Qed.

Lemma mapM_cons_Ok (x : A) (y : B) (l : list A) :
  f x = Ok y → mapM f (x :: l) = k ← mapM f l; Ok (y :: k).
Proof. intros H. cbn [mapM]. unfold mbind at 1, result_bind at 1. by rewrite H. Qed.

Lemma mapM_app (l1 l2 : list A) :
  mapM f (l1 ++ l2) = k1 ← mapM f l1; k2 ← mapM f l2; Ok (k1 ++ k2).
Proof.
  induction l1 as [|x l1 IH].
  - cbn [app mapM mbind result_bind mret result_ret].
    by destruct (mapM f l2).
  - cbn [app]. destruct (f x) as [y|e] eqn:Ey.
    + rewrite !(mapM_cons_Ok x y) by done. rewrite IH.
      destruct (mapM f l1); [|done]. cbn [mbind result_bind].
      by destruct (mapM f l2).
    + cbn [mapM]. unfold mbind at 1 3, result_bind at 1 3. by rewrite Ey.
Qed.
End MapM.

Lemma complete_insert (r : row) (key : string) (v : value) :
  complete r → v ≠ NA → complete (<[key := v]> r).
Proof. intros Hr Hv. by apply map_Forall_insert_2. Qed.

Lemma complete_delete (r : row) (key : string) :
  complete r → complete (delete key r).
Proof. intros Hr. by apply map_Forall_delete. Qed.

Lemma complete_rename_col (r : row) (old new : string) :
  complete r → complete (rename_col old new r).
Proof.
  intros Hr. unfold rename_col. destruct (r !! old) as [v|] eqn:E; [|done].
  apply complete_insert; [by apply complete_delete|].
  by apply (Hr old).
Qed.

Lemma rename_col_lookup (r : row) (old new key : string) :
  key ≠ old → key ≠ new → rename_col old new r !! key = r !! key.
Proof.
  intros H1 H2. unfold rename_col. destruct (r !! old); [|done].
  rewrite lookup_insert_ne by done. by rewrite lookup_delete_ne.
Qed.

Lemma expand_state_name_not_NA (state state' : value) :
  expand_state_name state = Ok state' → state ≠ NA → state' ≠ NA.
Proof.
  destruct state as [|s|q]; [done| |done]. rewrite expand_state_name_Str.
  generalize (default (strip s) (state_mapping !! strip s)).
  by intros full [= <-].
Qed.

(** Every row that the second half of the stage lets through is complete
    when the rows it got were, and its country comes from its state. *)
Lemma normalize_and_filter_rows (df out : frame) :
  normalize_and_filter df = Ok out →
  ∀ r', r' ∈ out →
    (Forall complete df → complete r')
    ∧ ∃ state, r' !! "state" = Some state
        ∧ ∃ continent, get_country_continent state = Ok ("United States", continent).
Proof.
  unfold normalize_and_filter. intros H.
  destruct (mapM _ df) as [df1|] eqn:E1; [|done]. cbn [mbind result_bind] in H.
  destruct (mapM _ df1) as [df2|] eqn:E2; [|done]. cbn [mbind result_bind] in H.
  injection H as <-. intros r' Hr'.
  apply list_elem_of_filter in Hr' as [Hus Hr'].
  apply list_elem_of_filter in Hr' as [_ Hr'].
  apply list_elem_of_fmap in Hr' as (r3 & -> & Hr').
  apply list_elem_of_fmap in Hr' as (r2 & -> & Hr').
  apply mapM_Ok_inv in E1, E2.
  destruct (proj1 (list_elem_of_lookup _ _) Hr') as [i Hi].
  destruct (Forall2_lookup_r _ _ _ _ _ E2 Hi) as (r1 & Hi1 & Hr2).
  destruct (Forall2_lookup_r _ _ _ _ _ E1 Hi1) as (r0 & Hi0 & Hr1).
  unfold col in Hr1, Hr2.
  destruct (r0 !! "state") as [st0|] eqn:Es0; [|done]. cbn [mbind result_bind] in Hr1.
  destruct (expand_state_name st0) as [st1|] eqn:Ex; [|done].
  cbn [mbind result_bind] in Hr1. injection Hr1 as <-.
  rewrite lookup_insert_eq in Hr2. cbn [mbind result_bind] in Hr2.
  destruct (get_country_continent st1) as [[country continent]|] eqn:Ec; [|done].
  cbn [mbind result_bind fst snd] in Hr2. injection Hr2 as <-.
  rewrite lookup_delete_ne in Hus by done.
  rewrite !rename_col_lookup in Hus by done.
  rewrite lookup_insert_ne, lookup_insert_eq in Hus by done.
  injection Hus as ->.
  split.
  - intros Hdf. apply complete_delete. do 4 apply complete_rename_col.
    assert (complete r0) as Hr0.
    { apply (proj1 (Forall_forall _ _) Hdf).
      by apply (list_elem_of_lookup_2 _ i). }
    do 2 (apply complete_insert; [|done]).
    apply complete_insert; [done|].
    apply (expand_state_name_not_NA st0); [done|].
    by apply (Hr0 "state").
  - exists st1. split; [|by eexists].
    rewrite lookup_delete_ne by done.
    rewrite !rename_col_lookup by done.
    do 2 (rewrite lookup_insert_ne by done).
    by rewrite lookup_insert_eq.
Qed.

Lemma parse_and_drop_complete (df out : frame) :
  parse_and_drop df = Ok out → Forall complete out.
Proof.
  unfold parse_and_drop. intros H.
  destruct (mapM _ (dropna df)) as [parsed|]; [|done].
  injection H as <-. unfold dropna.
  apply Forall_forall. intros r Hr. by apply list_elem_of_filter in Hr as [? _].
Qed.

Lemma mapM_length {A B} (f : A → result B) (l : list A) (k : list B) :
  mapM f l = Ok k → length l = length k.
Proof. intros H. by eapply Forall2_length, mapM_Ok_inv. Qed.

Lemma incomplete_union (d r : row) (key : string) :
  d !! key = Some NA → ¬ complete (d ∪ r).
Proof.
  intros Hd Hc. apply (Hc key NA); [|done].
  by apply lookup_union_Some_l.
Qed.

(** A row whose place parses with a field missing leaves no trace in the
    first half of the stage. *)
Lemma parse_and_drop_skips (pre post : frame) (r : row) (txt : string) (d : dict)
    (key : string) :
  r !! "place" = Some (Str txt) → parse_place txt = Ok d → d !! key = Some NA →
  parse_and_drop (pre ++ r :: post) = parse_and_drop (pre ++ post).
Proof.
  intros Hplace Hparse Hkey. unfold parse_and_drop, dropna.
  rewrite !filter_app, filter_cons.
  destruct (decide (complete r)) as [Hr|Hr]; [|done].
  set (P := fun r : row => place ← col r "place"; parse_place_cell place).
  assert (P r = Ok d) as HP.
  { unfold P, col. rewrite Hplace. exact Hparse. }
  rewrite !mapM_app, (mapM_cons_Ok P r d) by done.
  destruct (mapM P (filter complete pre)) as [a|] eqn:Ea; [|done].
  destruct (mapM P (filter complete post)) as [b|] eqn:Eb; [|done].
  cbn [mbind result_bind]. f_equal.
  apply mapM_length in Ea.
  rewrite !zip_with_app by done. cbn [zip_with].
  rewrite !filter_app, filter_cons.
  destruct (decide (complete (d ∪ r))) as [Hc|]; [|done].
  by destruct (incomplete_union d r key).
Qed.



(** The state of a row that leaves the stage is one that
    [get_country_continent] places in the United States. *)
Lemma clean_rows_in_us (df out : frame) (r' : row) :
  clean_and_transform_data df = Ok out → r' ∈ out →
  ∃ state continent,
    r' !! "state" = Some state
    ∧ get_country_continent state = Ok ("United States", continent).
Proof.
  intros H Hr'. unfold clean_and_transform_data in H.
  destruct (parse_and_drop df) as [df'|] eqn:E; [|done].
  cbn [mbind result_bind] in H.
  destruct (normalize_and_filter_rows df' out H r' Hr') as (_ & st & Hst & c & Hc).
  eauto.
Qed.

(** C9: Ohio, Iowa, Michigan, Delaware, Rhode Island, Vermont and North
    Dakota are in the region table, yet [get_country_continent] answers
    ("Unknown", "Unknown") for each of them; so no row that
    [clean_and_transform_data] returns has one of them as its state: the
    country filter removes such records before the region step. *)
Theorem region_states_without_country :
  let states :=
    ["Ohio"; "Iowa"; "Michigan"; "Delaware"; "Rhode Island"; "Vermont";
     "North Dakota"] in
  Forall (fun s => get_country_continent (Str s) = Ok ("Unknown", "Unknown")
                   ∧ is_Some (state_to_region !! s)) states
  ∧ (∀ (df out : frame) (r' : row) (s : string),
       clean_and_transform_data df = Ok out → r' ∈ out → s ∈ states →
       r' !! "state" ≠ Some (Str s)).
Proof.
  intros states.
  assert (Forall (fun s => get_country_continent (Str s) = Ok ("Unknown", "Unknown")
                           ∧ is_Some (state_to_region !! s)) states) as Hstates.
  { unfold states. repeat (apply Forall_cons; split; [split; [by vm_compute|]|]);
      try (by apply Forall_nil); by (eexists; vm_compute). }
  split; [exact Hstates|].
  intros df out r' s H Hr' Hs Hstate.
  destruct (clean_rows_in_us df out r' H Hr') as (st & c & Hst & Hc).
  rewrite Hstate in Hst. injection Hst as <-.
  apply (proj1 (Forall_forall _ _) Hstates) in Hs as [Hu _].
  rewrite Hu in Hc. discriminate Hc.
Qed.

Lemma region_states_without_country_witness :
  springfield_clean !! "state" ≠ Some (Str "Ohio").
Proof.
  apply (proj2 region_states_without_country
           [springfield_row; dayton_row] [springfield_clean] springfield_clean "Ohio");
    [vm_compute; reflexivity | apply list_elem_of_singleton; reflexivity
    | apply (bool_decide_unpack _); vm_compute; reflexivity].
Defined.



(** ** More on [parse_place] *)

(** X1: when [parse_place] reports a state, the state is a non-empty run of
    letters and blanks without white space at either end, and nearest is
    free of commas and of surrounding white space. *)
Theorem parse_place_state_shape (txt : string) (d : dict) (s : string) :
  parse_place txt = Ok d →
  d !! "state" = Some (Str s) →
  ∃ n, d !! "nearest" = Some (Str n)
    ∧ Forall (fun a => not_comma a = true) (list_ascii_of_string n)
    ∧ trimmed (list_ascii_of_string n)
    ∧ s ≠ ""
    ∧ Forall (fun a => is_letter_or_blank a = true) (list_ascii_of_string s)
    ∧ trimmed (list_ascii_of_string s).
Proof.
  intros Hp Hs.
  destruct (run place_pattern (strip_chars (list_ascii_of_string txt)) ∅
              (fun _ g => Some g)) as [m|] eqn:E.
  2: { unfold parse_place, re_match in Hp. rewrite chars_strip, E in Hp.
       injection Hp as <-. by rewrite lookup_location_state in Hs. }
  destruct (place_match_has_nearest (strip txt) m) as [cap Hcap].
  { unfold re_match. by rewrite chars_strip. }
  rewrite (parse_place_matched txt m cap E Hcap) in Hp.
  injection Hp as <-.
  rewrite lookup_location_state in Hs.
  unfold group in Hs. destruct (m !! "state") as [st|] eqn:Est; [|done].
  injection Hs as <-.
  destruct (place_match_state _ m st (strip_chars_trimmed _) E Est)
    as (cap' & Hcap' & Hnc & Hst & Hlb & Hst1).
  rewrite Hcap in Hcap'. injection Hcap' as <-.
  eexists. split; [apply lookup_location_nearest|].
  rewrite !chars_of_string. repeat split.
  - by apply Forall_strip_chars.
  - apply strip_chars_trimmed.
  - apply strip_chars_trimmed.
  - intros E'. apply Hst. apply string_of_inj. by rewrite E'.
  - done.
  - apply Hst1.
  - apply Hst1.
Qed.

Lemma parse_place_state_shape_witness :
  ∃ n, location (Str "3km") (Str "ENE") (Str "Springfield") (Str "IL") !! "nearest"
       = Some (Str n)
    ∧ Forall (fun a => not_comma a = true) (list_ascii_of_string n)
    ∧ trimmed (list_ascii_of_string n)
    ∧ "IL" ≠ ""
    ∧ Forall (fun a => is_letter_or_blank a = true) (list_ascii_of_string "IL")
    ∧ trimmed (list_ascii_of_string "IL").
Proof.
  apply (parse_place_state_shape "3km ENE of Springfield, IL");
    vm_compute; reflexivity.
Defined.

Lemma distance_re_inv s g s' g' :
  matches distance_re s g s' g' →
  ∃ ds ws k m,
    s = (ds ++ ws ++ [k; m]) ++ s' ∧ ds ≠ []
    ∧ Forall (fun a => is_digit a = true) ds
    ∧ Forall (fun a => is_space a = true) ws
    ∧ letter_ci "k" k = true ∧ letter_ci "m" m = true.
Proof.
  unfold distance_re, spaces. intros H.
  apply matches_cat_inv in H as (s3 & g3 & H & Hm).
  apply matches_cat_inv in H as (s2 & g2 & H & Hk).
  apply matches_cat_inv in H as (s1 & g1 & Hd & Hw).
  apply matches_rep_inv in Hd as (ds & -> & _ & Hds & Hlen & _).
  apply matches_rep_inv in Hw as (ws & -> & _ & Hws & _ & _).
  apply matches_chr_inv in Hk as (k & -> & _ & Hk).
  apply matches_chr_inv in Hm as (m & -> & _ & Hm).
  exists ds, ws, k, m. repeat split; try done.
  - by rewrite <- !app_assoc.
  - intros ->. simpl in Hlen. lia.
Qed.

Lemma take_consumed (p s : list ascii) :
  take (length (p ++ s) - length s) (p ++ s) = p.
Proof. by rewrite length_app, Nat.add_sub, take_app_length. Qed.

(** The groups of a match of the whole pattern, part by part. *)
Lemma place_match_offsets (l : list ascii) (m : groups) :
  run place_pattern l ∅ (fun _ g => Some g) = Some m →
  (∀ x, m !! "distance" = Some x →
     ∃ ds ws k c,
       x = ds ++ ws ++ [k; c] ∧ ds ≠ []
       ∧ Forall (fun a => is_digit a = true) ds
       ∧ Forall (fun a => is_space a = true) ws
       ∧ letter_ci "k" k = true ∧ letter_ci "m" c = true)
  ∧ (∀ x, m !! "direction" = Some x →
       1 ≤ length x ≤ 3 ∧ Forall (fun a => is_compass a = true) x).
Proof.
  intros E. rewrite run_place_pattern in E.
  apply run_sound in E as (s1 & g1 & H1 & E).
  apply run_sound in E as (s2 & g2 & H2 & E).
  apply run_sound in E as (s3 & g3 & H3 & E).
  apply run_sound in E as (s4 & g4 & H4 & E).
  cbn [run] in E. destruct (at_end s4); [|done]. injection E as <-.
  assert (∀ name, name ≠ "nearest" → name ≠ "state" → g4 !! name = g2 !! name)
    as Hlater.
  { intros name Hn Hs.
    rewrite (matches_keeps _ _ _ _ _ name H4)
      by (cbn; rewrite list_elem_of_singleton; congruence).
    rewrite (matches_keeps _ _ _ _ _ name H3)
      by (cbn; rewrite list_elem_of_singleton; congruence). done. }
  split.
  - intros x Hx. rewrite Hlater in Hx by done.
    rewrite (matches_keeps _ _ _ _ _ "distance" H2) in Hx
      by (apply (bool_decide_unpack _); vm_compute; reflexivity).
    apply matches_opt_inv in H1 as [H1|[_ ->]]; [|by rewrite lookup_empty in Hx].
    unfold distance_part in H1.
    apply matches_cat_inv in H1 as (sa & ga & H1 & Hw).
    apply matches_rep_inv in Hw as (_ & _ & -> & _).
    apply matches_grp_inv in H1 as (g0 & H1 & ->).
    rewrite lookup_insert_eq in Hx. injection Hx as <-.
    apply distance_re_inv in H1 as (ds & ws & k & c & -> & H).
    rewrite take_consumed. by exists ds, ws, k, c.
  - intros x Hx. rewrite Hlater in Hx by done.
    apply matches_opt_inv in H2 as [H2|[_ ->]].
    + unfold direction_part in H2.
      apply matches_cat_inv in H2 as (sb & gb & H2 & Hw).
      apply matches_rep_inv in Hw as (_ & _ & -> & _).
      apply matches_cat_inv in H2 as (sa & ga & H2 & Ho).
      apply matches_plain in Ho as [-> _]; [|by repeat split].
      apply matches_grp_inv in H2 as (g0 & H2 & ->).
      rewrite lookup_insert_eq in Hx. injection Hx as <-.
      apply matches_rep_inv in H2 as (p & -> & _ & Hp & Hlo & Hhi).
      rewrite take_consumed. split; [|done]. split; [done|]. by apply Hhi.
    + (* no direction in this match: the group is not among the earlier ones *)
      apply matches_opt_inv in H1 as [H1|[_ ->]]; [|by rewrite lookup_empty in Hx].
      rewrite (matches_keeps _ _ _ _ _ "direction" H1) in Hx
        by (apply (bool_decide_unpack _); vm_compute; reflexivity).
      by rewrite lookup_empty in Hx.
Qed.



(** ** Cleaning the offset distance *)

(** A greedy repetition takes a run of the class that ends before a
    character outside the class, when the rest accepts there. *)
Lemma rep_greedy_stop {A} (c : ascii → bool) lo (p s : list ascii)
    (k : list ascii → option A) x :
  Forall (fun a => c a = true) p → lo ≤ length p →
  match s with a :: _ => c a = false | [] => True end →
  k s = Some x →
  rep_greedy c lo None (p ++ s) k = Some x.
Proof.
  intros Hp. revert lo. induction Hp as [|a p Ha Hp IH]; intros lo Hlo Hs Hk.
  - destruct lo; [|simpl in Hlo; lia].
    destruct s as [|b s]; [done|]. simpl. by rewrite Hs.
  - simpl. rewrite Ha. simpl. rewrite IH; [done| |done..]. simpl in Hlo. lia.
Qed.

Lemma cut_matches_skip (r : regex) (n : nat) (s : list ascii) :
  cut_matches r n s = cut_matches r 0 (drop n s).
Proof.
  revert n. induction s as [|a s IH]; intros n; [by destruct n|].
  destruct n; [done|]. simpl. apply IH.
Qed.

Lemma cut_matches_keep (r : regex) (a : ascii) (s : list ascii) :
  match_length r (a :: s) = None →
  cut_matches r 0 (a :: s) = a :: cut_matches r 0 s.
Proof. intros H. simpl. by rewrite H. Qed.

Lemma cut_matches_all (r : regex) (s : list ascii) :
  s ≠ [] → match_length r s = Some (length s) → cut_matches r 0 s = [].
Proof.
  intros Hs H. destruct s as [|a s]; [done|]. simpl. rewrite H. simpl.
  rewrite cut_matches_skip, drop_all. done.
Qed.

Lemma km_re_no_space_no_k (a : ascii) (s : list ascii) :
  is_space a = false → (code a =? 107)%N = false →
  match_length km_re (a :: s) = None.
Proof.
  intros Hs Hk. unfold match_length, km_re, spaces. cbn [run].
  rewrite rep_greedy_none by done. by rewrite Hk.
Qed.

Lemma digit_not_space (a : ascii) : is_digit a = true → is_space a = false.
Proof.
  unfold is_digit, is_space, in_range. intros H.
  apply andb_prop in H as [H1 H2].
  apply N.leb_le in H1, H2.
  repeat (apply orb_false_intro); try apply andb_false_intro2;
    try (apply N.leb_gt; lia); apply N.eqb_neq; lia.
Qed.

Lemma digit_not_k (a : ascii) : is_digit a = true → (code a =? 107)%N = false.
Proof.
  unfold is_digit, in_range. intros H. apply andb_prop in H as [H1 H2].
  apply N.leb_le in H1, H2. apply N.eqb_neq. lia.
Qed.

Lemma cut_matches_digits (ds s : list ascii) :
  Forall (fun a => is_digit a = true) ds →
  cut_matches km_re 0 (ds ++ s) = ds ++ cut_matches km_re 0 s.
Proof.
  induction 1 as [|a ds Ha Hds IH]; [done|].
  cbn [app]. rewrite cut_matches_keep, IH; [done|].
  apply km_re_no_space_no_k; [by apply digit_not_space | by apply digit_not_k].
Qed.

Lemma match_length_spaces_km (ws : list ascii) :
  Forall (fun a => is_space a = true) ws →
  match_length km_re (ws ++ ["k"; "m"]%char)
  = Some (length (ws ++ ["k"; "m"]%char)).
Proof.
  intros Hws. unfold match_length, km_re, spaces. cbn [run].
  apply rep_greedy_stop; [done | lia | done |].
  cbn. rewrite length_app. cbn. f_equal. lia.
Qed.

Lemma strip_km_chars (ds ws : list ascii) :
  Forall (fun a => is_digit a = true) ds →
  Forall (fun a => is_space a = true) ws →
  cut_matches km_re 0 (ds ++ ws ++ ["k"; "m"]%char) = ds.
Proof.
  intros Hds Hws. rewrite cut_matches_digits by done.
  rewrite cut_matches_all; [by rewrite app_nil_r | | by apply match_length_spaces_km].
  by destruct ws.
Qed.

(** X3: a distance written as digits, optional white space and "km" in
    lower case loses its unit and is read as the number of its digits; if
    the digits are no number the step raises [ValueError]. *)
Theorem clean_offset_distance_km (to_float : string → option Q)
    (ds ws : list ascii) :
  Forall (fun a => is_digit a = true) ds →
  Forall (fun a => is_space a = true) ws →
  strip_km (string_of_list_ascii (ds ++ ws ++ ["k"; "m"]%char))
  = string_of_list_ascii ds
  ∧ clean_offset_distance to_float
      (Str (string_of_list_ascii (ds ++ ws ++ ["k"; "m"]%char)))
    = match to_float (string_of_list_ascii ds) with
      | Some q => Ok (Num q)
      | None => Raise ValueError
      end.
Proof.
  intros Hds Hws.
  assert (strip_km (string_of_list_ascii (ds ++ ws ++ ["k"; "m"]%char))
          = string_of_list_ascii ds) as H.
  { unfold strip_km. by rewrite chars_of_string, strip_km_chars. }
  split; [done|]. unfold clean_offset_distance. by rewrite H.
Qed.

Lemma clean_offset_distance_km_witness :
  strip_km "12  km" = "12"
  ∧ clean_offset_distance read_digits (Str "12  km") = Ok (Num 12).
Proof.
  apply (clean_offset_distance_km read_digits ["1"; "2"]%char [" "; " "]%char);
    apply (bool_decide_unpack _); vm_compute; reflexivity.
Defined.

Lemma rep_greedy_fail {A} (c : ascii → bool) lo hi (s : list ascii)
    (k : list ascii → option A) :
  (∀ i, k (drop i s) = None) → rep_greedy c lo hi s k = None.
Proof.
  revert lo hi. induction s as [|a s IH]; intros lo hi H.
  - simpl. destruct lo; [apply (H 0) | done].
  - assert (match lo with O => k (a :: s) | S _ => None end = None) as Hstop.
    { destruct lo; [apply (H 0) | done]. }
    simpl. destruct (c a && room hi); [|done].
    rewrite IH; [done|]. intros i. apply (H (S i)).
Qed.

Lemma contains_km_drop (s : list ascii) (i : nat) :
  contains_km s = false → contains_km (drop i s) = false.
Proof.
  revert s. induction i as [|i IH]; intros s H; [by rewrite drop_0|].
  destruct s as [|a s]; [done|]. cbn [drop]. apply IH.
  cbn [contains_km] in H. destruct s as [|b s]; [done|].
  by apply orb_false_elim in H as [_ H].
Qed.

Lemma match_length_no_km (s : list ascii) :
  contains_km s = false → match_length km_re s = None.
Proof.
  intros H. unfold match_length, km_re, spaces. cbn [run].
  apply rep_greedy_fail. intros i.
  apply (contains_km_drop _ i) in H.
  destruct (drop i s) as [|a [|b t]]; [done| by destruct (code a =? 107)%N |].
  cbn [contains_km] in H. apply orb_false_elim in H as [H _].
  destruct (code a =? 107)%N; [|done]. by destruct (code b =? 109)%N.
Qed.

Lemma cut_matches_no_km (s : list ascii) :
  contains_km s = false → cut_matches km_re 0 s = s.
Proof.
  induction s as [|a s IH]; intros H; [done|].
  rewrite cut_matches_keep by by apply match_length_no_km.
  rewrite IH; [done|]. apply (contains_km_drop _ 1 H).
Qed.

(** X4: text without "km" in lower case is left as it is, so a distance
    that the case-insensitive pattern took with upper-case letters, like
    "5 KM", reaches the number conversion with its unit, and the step
    raises [ValueError] when that text is no number. *)
Theorem clean_offset_distance_other_case (to_float : string → option Q)
    (s : string) :
  contains_km (list_ascii_of_string s) = false →
  strip_km s = s
  ∧ clean_offset_distance to_float (Str s)
    = match to_float s with
      | Some q => Ok (Num q)
      | None => Raise ValueError
      end.
Proof.
  intros H.
  assert (strip_km s = s) as Hs.
  { unfold strip_km. by rewrite cut_matches_no_km, string_of_chars. }
  split; [done|]. unfold clean_offset_distance. by rewrite Hs.
Qed.

Lemma clean_offset_distance_other_case_witness :
  parse_place "5 KM N of Big Pine, CA"
    = Ok (location (Str "5 KM") (Str "N") (Str "Big Pine") (Str "CA"))
  ∧ strip_km "5 KM" = "5 KM"
  ∧ clean_offset_distance read_digits (Str "5 KM") = Raise ValueError.
Proof.
  split; [vm_compute; reflexivity|].
  apply (clean_offset_distance_other_case read_digits "5 KM").
  vm_compute. reflexivity.
Defined.

(** ** The loading loop *)

Section LoadFacts.
Variable requests_get : string -> list (string * string) -> result response.
Variable read_csv : string -> result frame.

Lemma load_months_cons (all_data : list frame) (period : nat * nat)
    (rest : list (nat * nat)) (t : list event) (all_data' : list frame) :
  load_month requests_get read_csv all_data period = (t, Ok all_data') →
  load_months requests_get read_csv all_data (period :: rest)
  = (t ++ (load_months requests_get read_csv all_data' rest).1,
     (load_months requests_get read_csv all_data' rest).2).
Proof.
  intros H. cbn [load_months]. rewrite H. cbn [mbind io_bind].
  by destruct (load_months requests_get read_csv all_data' rest).
Qed.

Lemma load_month_raise (all_data : list frame) (year month last_day : nat) (e : exn) :
  monthrange_days year month = Ok last_day →
  requests_get base_url
    (query_params (first_day year month) (day_of year month last_day)) = Raise e →
  load_month requests_get read_csv all_data (year, month)
  = ([Print ("Fetching data for " +:+ first_day year month +:+ " to "
             +:+ day_of year month last_day +:+ "...")], Raise e).
Proof.
  intros Hd Hr. unfold load_month, fetch_month_data. cbn [fst snd].
  rewrite Hd. cbn [lift mbind io_bind print]. by rewrite Hr.
Qed.

Lemma load_month_ok (all_data : list frame) (year month last_day : nat)
    (resp : response) (df : frame) :
  monthrange_days year month = Ok last_day →
  requests_get base_url
    (query_params (first_day year month) (day_of year month last_day)) = Ok resp →
  status_code resp = 200%Z →
  read_csv (content resp) = Ok df →
  (load_month requests_get read_csv all_data (year, month)).2
  = Ok (all_data ++ filter (fun df => df ≠ []) [df]).
Proof.
  intros Hd Hr Hs Hc. unfold load_month, fetch_month_data. cbn [fst snd].
  rewrite Hd. cbn [lift mbind io_bind print]. rewrite Hr.
  cbn [lift mbind io_bind print]. rewrite Hs. cbn [Z.eqb Pos.eqb].
  rewrite Hc. cbn [lift mbind io_bind print mret io_ret snd].
  destruct df; [by rewrite app_nil_r | done].
Qed.
End LoadFacts.



Lemma monthrange_days_ok (year month : nat) :
  1 ≤ month ≤ 12 → ∃ last_day, monthrange_days year month = Ok last_day.
Proof.
  intros [H1 H2]. do 13 (destruct month as [|month]; [simpl; eauto; lia|]). lia.
Qed.

Lemma periods_months : Forall (fun p : nat * nat => 1 ≤ p.2 ≤ 12) periods.
Proof. apply (bool_decide_unpack _). vm_compute. reflexivity. Qed.

Section AllFail.
Variable requests_get : string -> list (string * string) -> result response.
Variable read_csv : string -> result frame.
Hypothesis unavailable :
  ∀ url params, ∃ resp, requests_get url params = Ok resp ∧ status_code resp ≠ 200%Z.

Lemma load_months_all_fail (all_data : list frame) (ps : list (nat * nat)) :
  Forall (fun p : nat * nat => 1 ≤ p.2 ≤ 12) ps →
  (load_months requests_get read_csv all_data ps).2 = Ok all_data
  ∧ Forall printed (load_months requests_get read_csv all_data ps).1.
Proof.
  induction 1 as [|[year month] ps Hp Hps [IH1 IH2]]; [by split|].
  destruct (monthrange_days_ok year month Hp) as [last_day Hd].
  destruct (unavailable base_url
              (query_params (first_day year month) (day_of year month last_day)))
    as (resp & Hr & Hs).
  assert (load_month requests_get read_csv all_data (year, month)
          = ([Print ("Fetching data for " +:+ first_day year month +:+ " to "
                     +:+ day_of year month last_day +:+ "...");
              Print (fetch_failed year month (status_code resp))], Ok all_data))
    as Hm.
  { unfold load_month. cbn [fst snd].
    by rewrite (fetch_month_data_failed _ _ year month last_day resp). }
  rewrite (load_months_cons _ _ _ _ _ _ _ Hm).
  cbn [fst snd]. split; [done|].
  apply Forall_cons. split; [by eexists|].
  apply Forall_cons. split; [by eexists|]. done.
Qed.
End AllFail.

(** X6: when the feed answers every request with a status other than 200,
    the load has nothing to concatenate: [load_earthquake_data] raises
    [ValueError] after its progress lines and writes no file. *)
Theorem load_fails_when_no_month_succeeds
    (requests_get : string -> list (string * string) -> result response)
    (read_csv : string -> result frame) :
  (∀ url params, ∃ resp,
     requests_get url params = Ok resp ∧ status_code resp ≠ 200%Z) →
  (load_earthquake_data requests_get read_csv).2 = Raise ValueError
  ∧ Forall printed (load_earthquake_data requests_get read_csv).1.
Proof.
  intros Hun. unfold load_earthquake_data.
  destruct (load_months_all_fail requests_get read_csv Hun [] periods periods_months)
    as [H2 H1].
  destruct (load_months requests_get read_csv [] periods) as [t r].
  cbn [fst snd] in H1, H2. subst r.
  cbn [mbind io_bind print lift pd_concat app fst snd].
  split; [done|].
  do 3 (apply Forall_cons; split; [by eexists|]).
  by rewrite app_nil_r.
Qed.

Lemma load_fails_when_no_month_succeeds_witness :
  (load_earthquake_data (fun _ _ => Ok (mk_response 503 "")) (fun _ => Ok [])).2
  = Raise ValueError
  ∧ Forall printed
      (load_earthquake_data (fun _ _ => Ok (mk_response 503 "")) (fun _ => Ok [])).1.
Proof.
  apply load_fails_when_no_month_succeeds.
  intros url params. exists (mk_response 503 ""). split; [reflexivity | discriminate].
Defined.

(** X7: when every month of the loop is answered with status 200 and a
    readable body, the frames handed to [pd.concat] are those of the
    months that have rows, in the order of the loop; a month without
    rows leaves no frame. *)
Theorem load_keeps_months_with_rows
    (requests_get : string -> list (string * string) -> result response)
    (read_csv : string -> result frame)
    (month_frame : nat * nat → frame)
    (all_data : list frame) (ps : list (nat * nat)) :
  Forall (fun p : nat * nat =>
            ∃ last_day resp,
              monthrange_days p.1 p.2 = Ok last_day
              ∧ requests_get base_url
                  (query_params (first_day p.1 p.2) (day_of p.1 p.2 last_day))
                = Ok resp
              ∧ status_code resp = 200%Z
              ∧ read_csv (content resp) = Ok (month_frame p)) ps →
  (load_months requests_get read_csv all_data ps).2
  = Ok (all_data ++ filter (fun df => df ≠ []) (month_frame <$> ps)).
Proof.
  intros H. revert all_data.
  induction H as [|[year month] ps (last_day & resp & Hd & Hr & Hs & Hc) _ IH];
    intros all_data.
  - by rewrite app_nil_r.
  - pose proof (load_month_ok requests_get read_csv all_data year month last_day
                  resp _ Hd Hr Hs Hc) as Hm.
    destruct (load_month requests_get read_csv all_data (year, month)) as [t r] eqn:E.
    cbn [snd] in Hm. subst r.
    rewrite (load_months_cons _ _ _ _ _ _ _ E). cbn [snd].
    rewrite IH, <- app_assoc. f_equal. f_equal.
    rewrite fmap_cons. change (month_frame (year, month) :: (month_frame <$> ps))
      with ([month_frame (year, month)] ++ (month_frame <$> ps)).
    by rewrite filter_app.
Qed.

Lemma load_keeps_months_with_rows_witness :
  (load_months
     (fun _ params => Ok (mk_response 200 (default "" (snd <$> params !! 1))))
     (fun body => Ok (if String.eqb body "2020-02-01" then [] else [springfield_row]))
     [] [(2020, 1); (2020, 2); (2020, 3)]).2
  = Ok [[springfield_row]; [springfield_row]].
Proof.
  apply (load_keeps_months_with_rows _ _
           (fun p => if (p.2 =? 2) then [] else [springfield_row]) []
           [(2020, 1); (2020, 2); (2020, 3)]).
  repeat constructor.
  - exists 31, (mk_response 200 "2020-01-01"). repeat split; reflexivity.
  - exists 29, (mk_response 200 "2020-02-01"). repeat split; reflexivity.
  - exists 31, (mk_response 200 "2020-03-01"). repeat split; reflexivity.
Defined.

(** ** Where the rows of step 2 come from *)

Lemma Forall2_zip_with_elem {A B C} (P : A → B → Prop) (f : A → B → C)
    (l : list A) (k : list B) (z : C) :
  Forall2 P l k → z ∈ zip_with f l k → ∃ x y, x ∈ l ∧ P x y ∧ z = f x y.
Proof.
  induction 1 as [|x y l k Hxy _ IH]; cbn [zip_with]; intros Hz.
  - by apply elem_of_nil in Hz.
  - apply elem_of_cons in Hz as [->|Hz].
    + exists x, y. split; [by left | done].
    + destruct (IH Hz) as (x' & y' & Hx' & HP & ->).
      exists x', y'. split; [by right | done].
Qed.

(** A row that leaves the first half is an input record with the four
    fields of its parsed place, all of them present. *)
Lemma parse_and_drop_rows (df out : frame) (row' : row) :
  parse_and_drop df = Ok out → row' ∈ out →
  ∃ (r : row) (txt : string) (d : dict),
    r ∈ df ∧ complete r ∧ r !! "place" = Some (Str txt)
    ∧ parse_place txt = Ok d ∧ row' = d ∪ r ∧ complete row'.
Proof.
  unfold parse_and_drop. intros H Hrow.
  destruct (mapM _ (dropna df)) as [parsed|] eqn:E; [|done].
  injection H as <-.
  apply list_elem_of_filter in Hrow as [Hc Hrow].
  apply mapM_Ok_inv in E.
  destruct (Forall2_zip_with_elem _ _ _ _ _ E Hrow) as (r & d & Hr & Hd & ->).
  apply list_elem_of_filter in Hr as [Hrc Hr].
  unfold col in Hd. destruct (r !! "place") as [[|txt|q]|] eqn:Ep; try done.
  exists r, txt, d. by repeat split.
Qed.

Lemma get_country_continent_us (state : value) (continent : string) :
  get_country_continent state = Ok ("United States", continent) →
  continent = "North America"
  ∧ ∃ s, state = Str s ∧ (strip s ∈ us_states ∨ strip s ∈ us_territories).
Proof.
  destruct state as [|s|q]; [done| |done].
  unfold get_country_continent.
  destruct (bool_decide (strip s ∈ us_states)) eqn:E1;
    [|destruct (bool_decide (strip s ∈ us_territories)) eqn:E2];
    cbn [orb]; intros [= <-]; (split; [done|]); exists s; (split; [done|]).
  - left. by apply bool_decide_eq_true in E1.
  - right. by apply bool_decide_eq_true in E2.
Qed.

Lemma rename_col_old (r : row) (old new : string) :
  old ≠ new → rename_col old new r !! old = None.
Proof.
  intros Hne. unfold rename_col. destruct (r !! old) eqn:E; [|done].
  rewrite lookup_insert_ne by done. apply lookup_delete_eq.
Qed.

Lemma rename_col_new (r : row) (old new : string) (v : value) :
  r !! old = Some v → rename_col old new r !! new = Some v.
Proof. intros H. unfold rename_col. rewrite H. apply lookup_insert_eq. Qed.

Lemma Ok_Str_inj (s1 s2 : string) : Ok (Str s1) = Ok (Str s2) → s1 = s2.
Proof. by intros [= ->]. Qed.

(** The second half, row by row. *)
Lemma normalize_and_filter_row (df out : frame) (r' : row) :
  normalize_and_filter df = Ok out → r' ∈ out →
  ∃ (r0 : row) (s : string),
    r0 ∈ df ∧ r0 !! "state" = Some (Str s)
    ∧ (strip s ∈ dom state_mapping ∨ strip s ∈ us_states ∨ strip s ∈ us_territories)
    ∧ r' = delete "place"
             (rename_col "nearest" "nearest_locality"
               (rename_col "distance" "offset_distance"
                 (rename_col "direction" "offset_direction"
                   (rename_col "id" "earthquake_id"
                     (<["continent" := Str "North America"]>
                       (<["country" := Str "United States"]>
                         (<["state" := Str (default (strip s) (state_mapping !! strip s))]>
                            r0))))))).
Proof.
  unfold normalize_and_filter. intros H.
  destruct (mapM _ df) as [df1|] eqn:E1; [|done]. cbn [mbind result_bind] in H.
  destruct (mapM _ df1) as [df2|] eqn:E2; [|done]. cbn [mbind result_bind] in H.
  injection H as <-. intros Hr'.
  apply list_elem_of_filter in Hr' as [Hus Hr'].
  apply list_elem_of_filter in Hr' as [_ Hr'].
  apply list_elem_of_fmap in Hr' as (r3 & -> & Hr').
  apply list_elem_of_fmap in Hr' as (r2 & -> & Hr').
  apply mapM_Ok_inv in E1, E2.
  destruct (proj1 (list_elem_of_lookup _ _) Hr') as [i Hi].
  destruct (Forall2_lookup_r _ _ _ _ _ E2 Hi) as (r1 & Hi1 & Hr2).
  destruct (Forall2_lookup_r _ _ _ _ _ E1 Hi1) as (r0 & Hi0 & Hr1).
  unfold col in Hr1, Hr2.
  destruct (r0 !! "state") as [st0|] eqn:Es0; [|done]. cbn [mbind result_bind] in Hr1.
  destruct (expand_state_name st0) as [st1|] eqn:Ex; [|done].
  cbn [mbind result_bind] in Hr1. injection Hr1 as <-.
  rewrite lookup_insert_eq in Hr2. cbn [mbind result_bind] in Hr2.
  destruct (get_country_continent st1) as [[country continent]|] eqn:Ec; [|done].
  cbn [mbind result_bind fst snd] in Hr2. injection Hr2 as <-.
  rewrite lookup_delete_ne in Hus by done.
  rewrite !rename_col_lookup in Hus by done.
  rewrite lookup_insert_ne, lookup_insert_eq in Hus by done.
  injection Hus as ->.
  apply get_country_continent_us in Ec as (-> & s1 & -> & Hs1).
  destruct st0 as [|s|q]; [done| |done].
  rewrite expand_state_name_Str in Ex. apply Ok_Str_inj in Ex.
  exists r0, s. split; [by apply (list_elem_of_lookup_2 _ i)|].
  split; [done|]. split; [|by rewrite Ex].
  destruct (state_mapping !! strip s) as [full|] eqn:Em.
  - left. apply elem_of_dom. by eexists.
  - right. cbn [default] in Ex. subst s1. by rewrite strip_idem in Hs1.
Qed.

Lemma parse_place_dom (txt : string) (d : dict) :
  parse_place txt = Ok d →
  dom d = list_to_set ["distance"; "direction"; "nearest"; "state"].
Proof.
  unfold parse_place.
  destruct (re_match place_pattern (strip txt)) as [m|] eqn:E.
  - destruct (place_match_has_nearest _ _ E) as [cap Hcap].
    unfold group. rewrite Hcap.
    cbn [fmap option_fmap option_map strip_attr mbind result_bind].
    intros H. apply (f_equal (fun x => match x with Ok a => dom a | Raise _ => ∅ end)) in H.
    rewrite <- H. apply dom_location.
  - intros H. apply (f_equal (fun x => match x with Ok a => dom a | Raise _ => ∅ end)) in H.
    rewrite <- H. apply dom_location.
Qed.

Lemma parsed_field (d r : row) (key : string) :
  dom d = list_to_set ["distance"; "direction"; "nearest"; "state"] →
  key ∈ ["distance"; "direction"; "nearest"; "state"] →
  ∃ v, d !! key = Some v ∧ (d ∪ r) !! key = Some v.
Proof.
  intros Hdom Hkey.
  assert (key ∈ dom d) as Hin by (rewrite Hdom; by apply elem_of_list_to_set).
  apply elem_of_dom in Hin as [v Hv]. exists v. split; [done|].
  by apply lookup_union_Some_l.
Qed.

Lemma unparsed_field (d r : row) (key : string) :
  dom d = list_to_set ["distance"; "direction"; "nearest"; "state"] →
  key ∉ ["distance"; "direction"; "nearest"; "state"] →
  (d ∪ r) !! key = r !! key.
Proof.
  intros Hdom Hkey. apply lookup_union_r, not_elem_of_dom.
  rewrite Hdom. by rewrite elem_of_list_to_set.
Qed.

Ltac in_list := apply (bool_decide_unpack _); vm_compute; reflexivity.



(** ** The county step on frames *)

Section JoinFacts.
Context {polygon : Type}.
Variable intersects : Q -> Q -> polygon -> bool.
Variable gdf_counties : list (@county polygon).

Lemma sjoin_left_rows (r : row) (pt : option (Q * Q)) (r' : row) :
  r' ∈ sjoin_left intersects gdf_counties r pt →
  ∃ v w, r' = <["NAME" := v]> (<["index_right" := w]> r).
Proof.
  unfold sjoin_left.
  destruct (matching intersects gdf_counties pt) as [|jc ms] eqn:E; intros H.
  - apply list_elem_of_singleton in H as ->. eauto.
  - apply list_elem_of_fmap in H as (jc' & -> & _). eauto.
Qed.

Lemma sjoin_left_nonempty (r : row) (pt : option (Q * Q)) :
  ∃ r', r' ∈ sjoin_left intersects gdf_counties r pt.
Proof.
  unfold sjoin_left.
  destruct (matching intersects gdf_counties pt) as [|jc ms] eqn:E.
  - eexists. by apply list_elem_of_singleton.
  - eexists. rewrite fmap_cons. by left.
Qed.

Lemma joined_row_lookup (r : row) (v w : value) (key : string) :
  key ∉ ["NAME"; "county"; "index_right"; "geometry"] →
  delete "geometry" (rename_col "NAME" "county"
                       (<["NAME" := v]> (<["index_right" := w]> r))) !! key
  = r !! key.
Proof.
  intros Hkey.
  assert (key ≠ "NAME" ∧ key ≠ "county" ∧ key ≠ "index_right" ∧ key ≠ "geometry")
    as (H1 & H2 & H3 & H4).
  { repeat split; intros ->; apply Hkey; apply (bool_decide_unpack _);
      vm_compute; reflexivity. }
  rewrite lookup_delete_ne by done.
  rewrite rename_col_lookup by done.
  by rewrite !lookup_insert_ne by done.
Qed.

Lemma joined_row_columns (r : row) (v w : value) :
  let r' := delete "geometry" (rename_col "NAME" "county"
                                 (<["NAME" := v]> (<["index_right" := w]> r))) in
  r' !! "county" = Some v ∧ r' !! "NAME" = None ∧ r' !! "geometry" = None.
Proof.
  cbn zeta. split; [|split].
  - rewrite lookup_delete_ne by done. apply rename_col_new, lookup_insert_eq.
  - rewrite lookup_delete_ne by done. by apply rename_col_old.
  - apply lookup_delete_eq.
Qed.

Lemma concat_zip_with_from (f : row → option (Q * Q) → list row)
    (P : row → option (Q * Q) → Prop) (l : list row) (k : list (option (Q * Q)))
    (z : row) :
  Forall2 P l k → z ∈ concat (zip_with f l k) →
  ∃ x y, x ∈ l ∧ P x y ∧ z ∈ f x y.
Proof.
  induction 1 as [|x y l k Hxy _ IH]; cbn [zip_with concat]; intros Hz.
  - by apply elem_of_nil in Hz.
  - apply elem_of_app in Hz as [Hz|Hz].
    + exists x, y. split; [by left | done].
    + destruct (IH Hz) as (x' & y' & Hx' & HP & Hz').
      exists x', y'. split; [by right | done].
Qed.

Lemma concat_zip_with_to (f : row → option (Q * Q) → list row)
    (P : row → option (Q * Q) → Prop) (l : list row) (k : list (option (Q * Q)))
    (x : row) :
  Forall2 P l k → x ∈ l →
  ∃ y, P x y ∧ ∀ z, z ∈ f x y → z ∈ concat (zip_with f l k).
Proof.
  induction 1 as [|x0 y l k Hxy _ IH]; cbn [zip_with concat]; intros Hx.
  - by apply elem_of_nil in Hx.
  - apply elem_of_cons in Hx as [->|Hx].
    + exists y. split; [done|]. intros z Hz. apply elem_of_app. by left.
    + destruct (IH Hx) as (y' & HP & Hz').
      exists y'. split; [done|]. intros z Hz. apply elem_of_app. right. by apply Hz'.
Qed.

Lemma concat_zip_with_length (f : row → option (Q * Q) → list row)
    (P : row → option (Q * Q) → Prop) (l : list row) (k : list (option (Q * Q))) :
  Forall2 P l k → (∀ x y, f x y ≠ []) →
  length l ≤ length (concat (zip_with f l k)).
Proof.
  intros H Hf. induction H as [|x y l k Hxy _ IH]; cbn [zip_with concat]; [done|].
  rewrite length_app. specialize (Hf x y).
  destruct (f x y); [done|]. simpl. lia.
Qed.
End JoinFacts.





(** ** The final step on frames *)

Lemma Ok_inj {A} (a b : A) : Ok a = Ok b → a = b.
Proof. by intros [= ->]. Qed.

Lemma regions_of_table :
  map_Forall (fun _ region => region ∈ ["Northeast"; "Midwest"; "South"; "West"])
    state_to_region.
Proof. apply (bool_decide_unpack _). vm_compute. reflexivity. Qed.

Lemma region_of_listed (state : value) :
  region_of state ≠ Str "Non-US" →
  ∃ s region, state = Str s ∧ state_to_region !! s = Some region
              ∧ region_of state = Str region.
Proof.
  unfold region_of, map_region. destruct state as [|s|q]; [done| |done].
  destruct (state_to_region !! s) as [region|] eqn:E; [|done].
  intros _. by exists s, region.
Qed.



(** ** Places in the full form *)

(** A greedy repetition takes a run of the class that ends at the bound
    or before a character outside the class, when the rest accepts there. *)
Lemma rep_greedy_stop_at {A} (c : ascii → bool) lo hi (p s : list ascii)
    (k : list ascii → option A) x :
  Forall (fun a => c a = true) p → lo ≤ length p →
  (∀ n, hi = Some n → length p ≤ n) →
  match s with a :: _ => c a = false | [] => True end →
  k s = Some x →
  rep_greedy c lo hi (p ++ s) k = Some x.
Proof.
  intros Hp. revert lo hi. induction Hp as [|a p Ha Hp IH]; intros lo hi Hlo Hhi Hs Hk.
  - destruct lo; [|simpl in Hlo; lia].
    destruct s as [|b s]; [done|]. simpl. by rewrite Hs.
  - apply room_bound in Hhi as [Hr Hhi].
    simpl. rewrite Ha, Hr. simpl. rewrite IH; [done| |done..]. simpl in Hlo. lia.
Qed.

Lemma letter_ci_codes (l a : ascii) :
  is_lower l = true → letter_ci l a = true →
  code a = code l ∨ code a = (code l - 32)%N.
Proof.
  unfold letter_ci. intros Hl H. rewrite Hl in H. cbn [andb] in H.
  apply orb_prop in H as [H|H]; [apply orb_prop in H as [H|H]|].
  - left. by apply N.eqb_eq.
  - right. by apply N.eqb_eq.
  - apply andb_prop in H as [Hu _]. exfalso.
    unfold is_lower, is_upper, in_range in *.
    apply andb_prop in Hl as [H1 H2], Hu as [H3 H4].
    apply N.leb_le in H1, H2, H3, H4. lia.
Qed.

(** A character that the pattern takes as one of its literal letters is
    neither white space nor a digit. *)
Lemma letter_ci_plain (l a : ascii) :
  is_lower l = true → letter_ci l a = true →
  is_space a = false ∧ is_digit a = false.
Proof.
  intros Hl H. pose proof Hl as Hl'.
  unfold is_lower, in_range in Hl'. apply andb_prop in Hl' as [H1 H2].
  apply N.leb_le in H1, H2.
  assert (65 ≤ code a ≤ 122)%N as [Ha1 Ha2].
  { destruct (letter_ci_codes l a Hl H) as [->| ->]; lia. }
  unfold is_space, is_digit, in_range. split.
  - replace (code a <=? 13)%N with false by (symmetry; apply N.leb_gt; lia).
    replace (code a <=? 32)%N with false by (symmetry; apply N.leb_gt; lia).
    replace (code a =? 133)%N with false by (symmetry; apply N.eqb_neq; lia).
    replace (code a =? 160)%N with false by (symmetry; apply N.eqb_neq; lia).
    by rewrite !andb_false_r.
  - replace (code a <=? 57)%N with false by (symmetry; apply N.leb_gt; lia).
    by rewrite andb_false_r.
Qed.

Lemma space_not_digit (a : ascii) : is_space a = true → is_digit a = false.
Proof.
  intros H. destruct (is_digit a) eqn:E; [|done].
  apply digit_not_space in E. congruence.
Qed.

Lemma head_not_space_app (u v : list ascii) :
  u ≠ [] → lstrip u = u →
  match u ++ v with a :: _ => is_space a = false | [] => True end.
Proof. intros Hu H. apply lstrip_fixed in H. by destruct u. Qed.

Lemma letter_ci_upper_codes (l a : ascii) :
  is_upper l = true → letter_ci l a = true →
  code a = code l ∨ code a = (code l + 32)%N.
Proof.
  unfold letter_ci. intros Hl H. rewrite Hl in H. cbn [andb] in H.
  apply orb_prop in H as [H|H]; [apply orb_prop in H as [H|H]|].
  - left. by apply N.eqb_eq.
  - apply andb_prop in H as [Hu _]. exfalso.
    unfold is_lower, is_upper, in_range in *.
    apply andb_prop in Hl as [H1 H2], Hu as [H3 H4].
    apply N.leb_le in H1, H2, H3, H4. lia.
  - right. by apply N.eqb_eq.
Qed.

Lemma compass_codes (a : ascii) :
  is_compass a = true →
  code a ∈ [78; 110; 83; 115; 69; 101; 87; 119]%N.
Proof.
  unfold is_compass. intros H.
  apply orb_prop in H as [H|H];
    [apply orb_prop in H as [H|H]; [apply orb_prop in H as [H|H]|]|];
    apply letter_ci_upper_codes in H as [H|H]; try reflexivity;
    rewrite H; apply (bool_decide_unpack _); vm_compute; reflexivity.
Qed.

Lemma compass_not_space (a : ascii) : is_compass a = true → is_space a = false.
Proof.
  intros H. apply compass_codes in H.
  unfold is_space, in_range.
  repeat (apply elem_of_cons in H as [->|H]); [reflexivity..|].
  by apply elem_of_nil in H.
Qed.

Lemma space_not_compass (a : ascii) : is_space a = true → is_compass a = false.
Proof.
  intros H. destruct (is_compass a) eqn:E; [|done].
  apply compass_not_space in E. congruence.
Qed.

Lemma letter_o_not_compass (a : ascii) :
  letter_ci "o" a = true → is_compass a = false.
Proof.
  intros H. destruct (is_compass a) eqn:E; [|done]. exfalso.
  apply compass_codes in E.
  destruct (letter_ci_codes "o" a eq_refl H) as [Ha|Ha];
    rewrite Ha in E; vm_compute in E;
    repeat (apply elem_of_cons in E as [E|E]; [discriminate E|]);
    by apply elem_of_nil in E.
Qed.

Section FullForm.
Context {A : Type}.
Implicit Types (K : list ascii → groups → option A).

Lemma run_distance_part (ds ws1 ws2 rest : list ascii) (k m : ascii) g K x :
  ds ≠ [] → Forall (fun a => is_digit a = true) ds →
  Forall (fun a => is_space a = true) ws1 →
  letter_ci "k" k = true → letter_ci "m" m = true →
  Forall (fun a => is_space a = true) ws2 →
  match rest with a :: _ => is_space a = false | [] => True end →
  K rest (<["distance" := ds ++ ws1 ++ [k; m]]> g) = Some x →
  run (Opt distance_part) ((ds ++ ws1 ++ [k; m]) ++ ws2 ++ rest) g K = Some x.
Proof.
  intros Hne Hds Hws1 Hk Hm Hws2 Hrest HK.
  cbn [run distance_part distance_re spaces].
  rewrite <- !app_assoc.
  destruct (letter_ci_plain "k" k eq_refl Hk) as [Hks Hkd].
  rewrite (rep_greedy_stop_at _ _ _ ds _ _ x); [done | done | | done | |].
  - destruct ds; [done | simpl; lia].
  - destruct ws1 as [|w ws1]; [done|]. apply Forall_cons in Hws1 as [Hw _].
    cbn [app]. by apply space_not_digit.
  - rewrite (rep_greedy_stop_at _ _ _ ws1 _ _ x); [done | done | lia | done | done |].
    cbn [app]. rewrite Hk, Hm.
    rewrite (rep_greedy_stop_at _ _ _ ws2 _ _ x); [done | done | lia | done | done |].
    rewrite <- HK. f_equal. f_equal.
    replace (ds ++ ws1 ++ k :: m :: ws2 ++ rest)
      with ((ds ++ ws1 ++ [k; m]) ++ ws2 ++ rest) by list_eq.
    apply take_consumed.
Qed.

Lemma run_direction_part (dir ws3 ws4 rest : list ascii) (o f : ascii) g K x :
  1 ≤ length dir ≤ 3 → Forall (fun a => is_compass a = true) dir →
  Forall (fun a => is_space a = true) ws3 →
  letter_ci "o" o = true → letter_ci "f" f = true →
  Forall (fun a => is_space a = true) ws4 →
  match rest with a :: _ => is_space a = false | [] => True end →
  K rest (<["direction" := dir]> g) = Some x →
  run (Opt direction_part) (dir ++ ws3 ++ [o; f] ++ ws4 ++ rest) g K = Some x.
Proof.
  intros [Hlo Hhi] Hdir Hws3 Ho Hf Hws4 Hrest HK.
  cbn [run direction_part direction_re of_re spaces].
  destruct (letter_ci_plain "o" o eq_refl Ho) as [Hos _].
  rewrite (rep_greedy_stop_at _ _ _ dir _ _ x); [done | done | done | | |].
  - by intros n [= <-].
  - destruct ws3 as [|w ws3]; cbn [app].
    + by apply letter_o_not_compass.
    + apply Forall_cons in Hws3 as [Hw _]. by apply space_not_compass.
  - rewrite (rep_greedy_stop_at _ _ _ ws3 _ _ x); [done | done | lia | done | done |].
    cbn [app]. rewrite Ho, Hf.
    rewrite (rep_greedy_stop_at _ _ _ ws4 _ _ x); [done | done | lia | done | done |].
    rewrite <- HK. f_equal. f_equal. apply take_consumed.
Qed.
End FullForm.

Lemma tail_state_spaces {A} (ws st : list ascii) g
    (k : list ascii → groups → option A) x :
  Forall (fun a => is_space a = true) ws →
  st ≠ [] → Forall (fun a => is_letter_or_blank a = true) st →
  lstrip st = st →
  k [] (<["state" := st]> g) = Some x →
  run (Opt state_part) (","%char :: ws ++ st) g (fun s4 g4 => run Dollar s4 g4 k)
  = Some x.
Proof.
  intros Hws Hne Hst Hhead Hk.
  cbn [run state_part spaces state_re].
  change (is_comma ","%char) with true. cbv iota.
  rewrite (rep_greedy_stop_at _ _ _ ws _ _ x); [done | done | lia | done | |].
  - apply lstrip_fixed in Hhead. by destruct st.
  - rewrite (rep_greedy_all _ _ st _ x); [done | done | | ].
    + destruct st; [done | simpl; lia].
    + cbn [at_end]. rewrite Nat.sub_0_r, firstn_all. exact Hk.
Qed.

(** The match of a place in the full form. *)
Lemma place_match_full (ds ws1 ws2 dir ws3 ws4 n ws5 st : list ascii)
    (k m o f : ascii) :
  ds ≠ [] → Forall (fun a => is_digit a = true) ds →
  Forall (fun a => is_space a = true) ws1 →
  letter_ci "k" k = true → letter_ci "m" m = true →
  Forall (fun a => is_space a = true) ws2 →
  1 ≤ length dir ≤ 3 → Forall (fun a => is_compass a = true) dir →
  Forall (fun a => is_space a = true) ws3 →
  letter_ci "o" o = true → letter_ci "f" f = true →
  Forall (fun a => is_space a = true) ws4 →
  n ≠ [] → Forall (fun a => not_comma a = true) n → lstrip n = n →
  Forall (fun a => is_space a = true) ws5 →
  st ≠ [] → Forall (fun a => is_letter_or_blank a = true) st → lstrip st = st →
  run place_pattern
    ((ds ++ ws1 ++ [k; m]) ++ ws2 ++ dir ++ ws3 ++ [o; f] ++ ws4
       ++ n ++ ","%char :: ws5 ++ st) ∅ (fun _ g => Some g)
  = Some (<["state" := st]> (<["nearest" := n]> (<["direction" := dir]>
            (<["distance" := ds ++ ws1 ++ [k; m]]> ∅)))).
Proof.
  intros Hds1 Hds Hws1 Hk Hm Hws2 Hdir1 Hdir Hws3 Ho Hf Hws4 Hn1 Hn Hn2 Hws5
    Hst1 Hst Hst2.
  rewrite run_place_pattern.
  apply run_distance_part; try done.
  { destruct dir as [|a dir]; [simpl in Hdir1; lia|].
    apply Forall_cons in Hdir as [Ha _]. by apply compass_not_space. }
  apply run_direction_part; try done.
  { by apply head_not_space_app. }
  rewrite run_nearest.
  apply rep_lazy_first; [done | destruct n; [done | simpl; lia] | |].
  - intros i Hi.
    assert (∃ a s, drop i n = a :: s) as (a & s & E).
    { destruct (drop i n) as [|a s] eqn:E; [|by eauto].
      apply (f_equal length) in E. rewrite length_drop in E. simpl in E. lia. }
    rewrite E. apply tail_inside.
    + apply (Forall_drop _ i) in Hn. rewrite E in Hn.
      by apply Forall_cons in Hn as [? _].
    + by destruct s.
  - apply tail_state_spaces; [done..|].
    cbn [run at_end]. by rewrite take_consumed.
Qed.

Lemma lstrip_rev_app (v st : list ascii) :
  st ≠ [] → lstrip (rev st) = rev st → lstrip (rev (v ++ st)) = rev (v ++ st).
Proof.
  intros Hne H. rewrite rev_app_distr. apply lstrip_fixed.
  apply lstrip_fixed in H. destruct (rev st) as [|a l] eqn:E; [|done].
  destruct Hne. apply (f_equal (@rev ascii)) in E.
  by rewrite rev_involutive in E.
Qed.

(** X12: a place in the full form -- digits, "km", a direction of one to
    three compass letters, "of", a locality without comma, a comma and a
    state of letters and blanks, with any white space between the parts
    and letters in either case -- is parsed into exactly these four
    parts. *)
Theorem parse_place_full_form (ds ws1 ws2 dir ws3 ws4 n ws5 st : list ascii)
    (k m o f : ascii) :
  ds ≠ [] → Forall (fun a => is_digit a = true) ds →
  Forall (fun a => is_space a = true) ws1 →
  letter_ci "k" k = true → letter_ci "m" m = true →
  Forall (fun a => is_space a = true) ws2 →
  1 ≤ length dir ≤ 3 → Forall (fun a => is_compass a = true) dir →
  Forall (fun a => is_space a = true) ws3 →
  letter_ci "o" o = true → letter_ci "f" f = true →
  Forall (fun a => is_space a = true) ws4 →
  n ≠ [] → Forall (fun a => not_comma a = true) n → trimmed n →
  Forall (fun a => is_space a = true) ws5 →
  st ≠ [] → Forall (fun a => is_letter_or_blank a = true) st → trimmed st →
  parse_place
    (string_of_list_ascii
       ((ds ++ ws1 ++ [k; m]) ++ ws2 ++ dir ++ ws3 ++ [o; f] ++ ws4
          ++ n ++ ","%char :: ws5 ++ st))
  = Ok (location (Str (string_of_list_ascii (ds ++ ws1 ++ [k; m])))
          (Str (string_of_list_ascii dir))
          (Str (string_of_list_ascii n))
          (Str (string_of_list_ascii st))).
Proof.
  intros Hds1 Hds Hws1 Hk Hm Hws2 Hdir1 Hdir Hws3 Ho Hf Hws4 Hn1 Hn [Hn2 Hn3] Hws5
    Hst1 Hst [Hst2 Hst3].
  set (l := (ds ++ ws1 ++ [k; m]) ++ ws2 ++ dir ++ ws3 ++ [o; f] ++ ws4
              ++ n ++ ","%char :: ws5 ++ st).
  assert (trimmed l) as Ht.
  { unfold l. apply trimmed_app.
    - by destruct ds.
    - destruct ws2, dir; try done. simpl in Hdir1. lia.
    - apply lstrip_fixed. destruct ds as [|a ds]; [done|]. cbn [app].
      apply Forall_cons in Hds as [Ha _]. by apply digit_not_space.
    - replace (ws2 ++ dir ++ ws3 ++ [o; f] ++ ws4 ++ n ++ ","%char :: ws5 ++ st)
        with ((ws2 ++ dir ++ ws3 ++ [o; f] ++ ws4 ++ n ++ ","%char :: ws5) ++ st)
        by list_eq.
      by apply lstrip_rev_app. }
  rewrite (parse_place_matched _
             (<["state" := st]> (<["nearest" := n]> (<["direction" := dir]>
                (<["distance" := ds ++ ws1 ++ [k; m]]> ∅)))) n).
  - unfold group. rewrite lookup_insert_eq.
    rewrite (lookup_insert_ne _ "state" "direction") by done.
    rewrite (lookup_insert_ne _ "nearest" "direction") by done.
    rewrite lookup_insert_eq.
    rewrite (lookup_insert_ne _ "state" "distance") by done.
    rewrite (lookup_insert_ne _ "nearest" "distance") by done.
    rewrite (lookup_insert_ne _ "direction" "distance") by done.
    rewrite lookup_insert_eq.
    cbn [fmap option_fmap option_map of_group].
    by rewrite trimmed_strip_chars by done.
  - rewrite chars_of_string, trimmed_strip_chars by done.
    by apply place_match_full.
  - rewrite lookup_insert_ne by done. apply lookup_insert_eq.
Qed.

Lemma parse_place_full_form_witness :
  parse_place "12 Km  sw OF San Jose,  New Mexico"
  = Ok (location (Str "12 Km") (Str "sw") (Str "San Jose") (Str "New Mexico")).
Proof.
  apply (parse_place_full_form
           (list_ascii_of_string "12") (list_ascii_of_string " ")
           (list_ascii_of_string "  ") (list_ascii_of_string "sw")
           (list_ascii_of_string " ") (list_ascii_of_string " ")
           (list_ascii_of_string "San Jose") (list_ascii_of_string "  ")
           (list_ascii_of_string "New Mexico") "K" "m" "O" "F");
    try (apply (bool_decide_unpack _); vm_compute; reflexivity);
    try reflexivity; try discriminate;
    try (split; reflexivity); cbn; lia.
Defined.
